(** * design-mirror: the keyframes extractor and the size-targeting compressor

    Part I embeds [scripts/extract-keyframes.py]: Python strings as lists
    of code points, the regular expression of [extract_keyframes_blocks] run
    by a small greedy backtracking matcher, the brace-counting [while] loop
    with an explicit iteration budget, and the pipeline of [main]
    (sorting, [dict.setdefault], slicing by [--limit], markdown lines).

    Part II holds the size-targeting compressor, whose program text is not
    part of the sources at hand; it is modelled from its written
    description. *)

From Stdlib Require Import ZArith NArith Lia String Ascii Decimal DecimalNat.
From stdpp Require Import base option list gmap sorting.

Local Open Scope Z_scope.

(** ** Python strings *)

(** A Python [str] is a sequence of Unicode code points. *)
Abbreviation char := N.
Abbreviation str := (list N).

(** ASCII literals of the source, as code points. *)
Definition lit (s : string) : str := map N_of_ascii (list_ascii_of_string s).

Definition lbrace : char := 123%N.
Definition rbrace : char := 125%N.
Definition slash : char := 47%N.

(** [s[a:b]] for [0 <= a], [0 <= b]: Python clamps both ends to [len(s)]
    and yields the empty string when [b <= a]. *)
Definition slice (s : str) (a b : nat) : str := take (b - a) (drop a s).

(** [\s] of [re] on a [str] pattern: the ASCII table of white space
    (TAB..CR, FS..US, SPACE) and the Unicode characters of category
    white space above it. *)
Definition is_space (c : char) : bool :=
  ((9 <=? c) && (c <=? 13) || (28 <=? c) && (c <=? 32)
   || (c =? 133) || (c =? 160) || (c =? 5760)
   || (8192 <=? c) && (c <=? 8202)
   || (c =? 8232) || (c =? 8233) || (c =? 8239) || (c =? 8287)
   || (c =? 12288))%N.

(** ** The fragment of [re] used by the extractor *)

Inductive quant := One | Plus | Star.

(** A pattern is a sequence of quantified character classes, with the
    parentheses of the one capture group as marks between them. *)
Inductive node :=
| Chars (q : quant) (cls : char -> bool)
| GroupOpen
| GroupClose.

(** Positions of group 1, as [match.start(1)] and [match.end(1)]. *)
Record caps := { g_open : nat; g_close : nat }.

(** Greedy repetition: take one more character when the class allows it,
    and come back to the continuation [k] on the shorter run only if the
    longer one fails. *)
Fixpoint star {R : Type} (cls : char -> bool) (k : nat -> str -> option R)
    (pos : nat) (s : str) : option R :=
  match s with
  | c :: s' =>
      if cls c then
        match star cls k (S pos) s' with
        | Some r => Some r
        | None => k pos s
        end
      else k pos s
  | [] => k pos []
  end.

(** [run p pos s g]: match the pattern [p] against the suffix [s] that
    starts at index [pos]; the result is the end index and the group. *)
Fixpoint run (p : list node) (pos : nat) (s : str) (g : caps)
    : option (nat * caps) :=
  match p with
  | [] => Some (pos, g)
  | Chars One cls :: p' =>
      match s with
      | c :: s' => if cls c then run p' (S pos) s' g else None
      | [] => None
      end
  | Chars Plus cls :: p' =>
      match s with
      | c :: s' =>
          if cls c then star cls (fun pos' s'' => run p' pos' s'' g) (S pos) s'
          else None
      | [] => None
      end
  | Chars Star cls :: p' => star cls (fun pos' s'' => run p' pos' s'' g) pos s
  | GroupOpen :: p' => run p' pos s {| g_open := pos; g_close := g_close g |}
  | GroupClose :: p' => run p' pos s {| g_open := g_open g; g_close := pos |}
  end.

Definition literal (s : str) : list node := map (fun c => Chars One (N.eqb c)) s.

(** [[^\s{]]. *)
Definition name_char (c : char) : bool := negb (is_space c || (c =? lbrace)%N).

(** [r"@keyframes\s+([^\s{]+)\s*\{"]. *)
Definition keyframes_re : list node :=
  literal (lit "@keyframes")
  ++ [Chars Plus is_space; GroupOpen; Chars Plus name_char; GroupClose;
      Chars Star is_space; Chars One (N.eqb lbrace)].

(** A match object: [start()], [end()], [start(1)], [end(1)]. *)
Record Match := { m_start : nat; m_end : nat; m_group : caps }.

Definition match_at (p : list node) (pos : nat) (s : str) : option Match :=
  match run p pos s {| g_open := pos; g_close := pos |} with
  | Some (e, g) => Some {| m_start := pos; m_end := e; m_group := g |}
  | None => None
  end.

(** [re.finditer]: the leftmost match from the current position, then on
    from its end.  [skip] counts the characters of the last match still to
    be passed over; the pattern at hand never matches the empty string, so
    the special handling of empty matches does not arise. *)
Fixpoint finditer_from (p : list node) (skip pos : nat) (s : str) : list Match :=
  match s with
  | [] => []
  | _ :: s' =>
      match skip with
      | S k => finditer_from p k (S pos) s'
      | O =>
          match match_at p pos s with
          | Some m => m :: finditer_from p (m_end m - pos - 1) (S pos) s'
          | None => finditer_from p 0 (S pos) s'
          end
      end
  end.

Definition finditer (p : list node) (s : str) : list Match := finditer_from p 0 0 s.

(** ** [extract_keyframes_blocks] *)

Record KeyframesBlock := { name : str; file : str; css : str }.

(** How a piece of Python ends: with a value, with an exception, or not
    within the iteration budget given to its loops. *)
Inductive outcome (A : Type) :=
| Returned (a : A)
| Raised
| OutOfFuel.
Arguments Returned {A} a.
Arguments Raised {A}.
Arguments OutOfFuel {A}.

(** The [while i < len(css_text)] loop.  [css_text[i]] raises
    [IndexError] out of range; the result is [Some end] when the loop breaks
    after appending and [None] when it runs off the end of the text. *)
Fixpoint scan (fuel : nat) (css_text : str) (i : nat) (depth : Z)
    : outcome (option nat) :=
  match fuel with
  | O => OutOfFuel
  | S fuel' =>
      if (i <? length css_text)%nat then
        match css_text !! i with
        | None => Raised
        | Some c =>
            if (c =? lbrace)%N then scan fuel' css_text (i + 1) (depth + 1)
            else if (c =? rbrace)%N then
              let depth' := depth - 1 in
              if depth' =? 0 then Returned (Some (i + 1)%nat)
              else scan fuel' css_text (i + 1) depth'
            else scan fuel' css_text (i + 1) depth
        end
      else Returned None
  end.

(** The body of the [for match in ...] loop: the block appended for one
    match, if any. *)
Definition block_for (fuel : nat) (css_text source_file : str) (m : Match)
    : outcome (option KeyframesBlock) :=
  let name := slice css_text (g_open (m_group m)) (g_close (m_group m)) in
  let i := (m_end m - 1)%nat in
  match scan fuel css_text i 0 with
  | Returned (Some e) =>
      Returned (Some {| name := name; file := source_file;
                        css := slice css_text (m_start m) e |})
  | Returned None => Returned None
  | Raised => Raised
  | OutOfFuel => OutOfFuel
  end.

Fixpoint collect (fuel : nat) (css_text source_file : str) (ms : list Match)
    (blocks : list KeyframesBlock) : outcome (list KeyframesBlock) :=
  match ms with
  | [] => Returned blocks
  | m :: ms' =>
      match block_for fuel css_text source_file m with
      | Returned (Some b) => collect fuel css_text source_file ms' (blocks ++ [b])
      | Returned None => collect fuel css_text source_file ms' blocks
      | Raised => Raised
      | OutOfFuel => OutOfFuel
      end
  end.

(** The function with the budget of its inner loop left open. *)
Definition extract_keyframes_blocks_fuel (fuel : nat) (css_text source_file : str)
    : outcome (list KeyframesBlock) :=
  collect fuel css_text source_file (finditer keyframes_re css_text) [].

(** The function itself: [len(css_text) + 1] tests of the loop condition
    always suffice (see [scan_terminates]). *)
Definition extract_keyframes_blocks (css_text source_file : str) : list KeyframesBlock :=
  match extract_keyframes_blocks_fuel (S (length css_text)) css_text source_file with
  | Returned blocks => blocks
  | _ => []
  end.


(** ** [main] *)

(** Order of [str] under [<=]: lexicographic by code point. *)
Fixpoint str_leb (a b : str) : bool :=
  match a, b with
  | [], _ => true
  | _ :: _, [] => false
  | x :: a', y :: b' =>
      if (x <? y)%N then true else if (x =? y)%N then str_leb a' b' else false
  end.

Definition str_le (a b : str) : Prop := str_leb a b = true.

#[global] Instance str_le_dec (a b : str) : Decision (str_le a b).
Proof. unfold str_le. apply _. Defined.

(** [sorted] on a list of strings.  The order is total and antisymmetric,
    so the sorted permutation of a list is unique ([sorted_is_the_sort])
    and any correct sort stands for Python's. *)
Definition sorted (l : list str) : list str := merge_sort str_le l.

(** [os.path.basename] (POSIX): what follows the last slash. *)
Fixpoint basename_from (p tail : str) : str :=
  match p with
  | [] => tail
  | c :: p' =>
      if (c =? slash)%N then basename_from p' [] else basename_from p' (tail ++ [c])
  end.

Definition basename (p : str) : str := basename_from p [].

(** [dict.setdefault(k, v)]: insert only when the key is absent. *)
Definition setdefault (k : str) (v : KeyframesBlock)
    (d : gmap str KeyframesBlock) : gmap str KeyframesBlock :=
  match d !! k with
  | Some _ => d
  | None => <[k := v]> d
  end.

(** [for path in css_files: all_blocks.extend(extract(read_text(path), basename(path)))]. *)
Definition gather (read_text : str -> str) (css_files : list str) : list KeyframesBlock :=
  flat_map (fun path => extract_keyframes_blocks (read_text path) (basename path)) css_files.

(** [for b in all_blocks: dedup.setdefault(b.name, b)]. *)
Definition deduplicate (all_blocks : list KeyframesBlock) : gmap str KeyframesBlock :=
  fold_left (fun d b => setdefault (name b) b d) all_blocks ∅.

(** [sorted(dedup.keys())]. *)
Definition sorted_keys (dedup : gmap str KeyframesBlock) : list str :=
  sorted (map fst (map_to_list dedup)).

(** [names[: max(0, limit)]]. *)
Definition limited (names : list str) (limit : Z) : list str :=
  take (Z.to_nat (Z.max 0 limit)) names.

(** [str(n)] for a length. *)
Fixpoint uint_chars (u : Decimal.uint) : str :=
  match u with
  | Nil => []
  | D0 u' => 48%N :: uint_chars u'
  | D1 u' => 49%N :: uint_chars u'
  | D2 u' => 50%N :: uint_chars u'
  | D3 u' => 51%N :: uint_chars u'
  | D4 u' => 52%N :: uint_chars u'
  | D5 u' => 53%N :: uint_chars u'
  | D6 u' => 54%N :: uint_chars u'
  | D7 u' => 55%N :: uint_chars u'
  | D8 u' => 56%N :: uint_chars u'
  | D9 u' => 57%N :: uint_chars u'
  end.

Definition str_of_nat (n : nat) : str :=
  match Nat.to_uint n with
  | Nil => [48%N]
  | u => uint_chars u
  end.

(** The four lines appended before the loop over [names]. *)
Definition header_lines (abs_folder : str) (unique : nat) : list str :=
  [ lit "# Keyframes Extraction" ++ [10%N];
    lit "- folder: `" ++ abs_folder ++ lit "`";
    lit "- keyframes (unique): " ++ str_of_nat unique;
    [] ].

(** The seven lines appended for one name. *)
Definition section_lines (n : str) (b : KeyframesBlock) : list str :=
  [ lit "## `" ++ n ++ lit "`";
    lit "- source: `" ++ file b ++ lit "`";
    [];
    lit "```css";
    css b;
    lit "```";
    [] ].

(** [for name in names: b = dedup[name]; ...]: [dedup[name]] raises
    [KeyError] on a missing key. *)
Fixpoint sections (dedup : gmap str KeyframesBlock) (names : list str)
    (out_lines : list (list str)) : outcome (list (list str)) :=
  match names with
  | [] => Returned out_lines
  | n :: names' =>
      match dedup !! n with
      | None => Raised
      | Some b => sections dedup names' (out_lines ++ [section_lines n b])
      end
  end.

(** ["\n".join(out_lines)]. *)
Fixpoint join_lines (ls : list str) : str :=
  match ls with
  | [] => []
  | [l] => l
  | l :: ls' => l ++ 10%N :: join_lines ls'
  end.

(** What [main] computes from its surroundings: [globbed] is the result of
    [glob.glob(os.path.join(folder, "*.css"))], [read_text] the content of
    the files, [abs_folder] is [os.path.abspath(folder)] and [limit] is
    [args.limit].  [m_sections] keeps the lines of each section apart;
    [m_out_lines] is [out_lines] and [m_output] the text printed or
    written. *)
Record Report := {
  m_unique : nat;
  m_names : list str;
  m_sections : list (list str);
  m_out_lines : list str;
  m_output : str;
  m_status : Z
}.

Definition main (globbed : list str) (read_text : str -> str)
    (abs_folder : str) (limit : Z) : outcome Report :=
  let css_files := sorted globbed in
  let all_blocks := gather read_text css_files in
  let dedup := deduplicate all_blocks in
  let names := limited (sorted_keys dedup) limit in
  match sections dedup names [] with
  | Returned secs =>
      let out_lines := header_lines abs_folder (size dedup) ++ concat secs in
      Returned {| m_unique := size dedup; m_names := names; m_sections := secs;
                  m_out_lines := out_lines; m_output := join_lines out_lines;
                  m_status := 0 |}
  | Raised => Raised
  | OutOfFuel => OutOfFuel
  end.

(** ** Brace depth of a text *)

(** What one character adds to [depth] in the loop. *)
Definition delta (c : char) : Z :=
  if (c =? lbrace)%N then 1 else if (c =? rbrace)%N then -1 else 0.

(** Opening minus closing braces. *)
Fixpoint net (s : str) : Z :=
  match s with
  | [] => 0
  | c :: s' => delta c + net s'
  end.

Definition occ (c : char) (s : str) : nat := count_occ N.eq_dec s c.

(** ** Vocabulary of the statements about the extractor *)

(** Balanced from the first character on: as many opening as closing
    braces, and a depth that stays positive until the last character. *)
Definition balanced (body : str) : Prop :=
  occ lbrace body = occ rbrace body
  /\ forall k, (0 < k < length body)%nat -> 0 < net (take k body).

(** The header of a block: the keyword, white space, the name, optional
    white space. *)
Definition header_of (head nm : str) : Prop :=
  exists ws ws',
    head = lit "@keyframes" ++ ws ++ nm ++ ws'
    /\ ws <> [] /\ Forall (fun c => is_space c = true) ws
    /\ Forall (fun c => is_space c = true) ws'.

Definition block_shape (css_text source_file : str) (b : KeyframesBlock) : Prop :=
  file b = source_file
  /\ (exists pre post, css_text = pre ++ css b ++ post)
  /\ name b <> [] /\ Forall (fun c => name_char c = true) (name b)
  /\ exists head inner,
       css b = head ++ lbrace :: inner ++ [rbrace]
       /\ header_of head (name b)
       /\ balanced (lbrace :: inner ++ [rbrace]).

(** The block of one match with the iteration budget that always suffices. *)
Definition block_of (css_text source_file : str) (m : Match) : option KeyframesBlock :=
  match block_for (S (length css_text)) css_text source_file m with
  | Returned o => o
  | _ => None
  end.

(** The brace opened by the match is never closed again: no end of a slice
    that starts at the brace brings the depth back to zero. *)
Definition unclosed (css_text : str) (m : Match) : Prop :=
  forall e, (m_end m <= e <= length css_text)%nat ->
            net (slice css_text (m_end m - 1) e) <> 0.

(** The first block of [blocks] whose name is [n]. *)
Fixpoint first_named (n : str) (blocks : list KeyframesBlock) : option KeyframesBlock :=
  match blocks with
  | [] => None
  | b :: blocks' => if decide (name b = n) then Some b else first_named n blocks'
  end.

(** [a] comes before [b] and does not overlap it. *)
Definition precedes (a b : Match) : Prop :=
  (m_start a < m_start b)%nat /\ (m_end a <= m_start b)%nat.

(** A small folder for examples: [d/a.css] and [d/b.css]. *)
Definition demo_read_text (p : str) : str :=
  if decide (p = lit "d/b.css") then lit "@keyframes x{a{}} @keyframes y {}"
  else lit "@keyframes x {b{}}@keyframes a} {}".

(** ** Vocabulary of the further statements *)

(** The text [s] reads a header: the keyword, white space [ws], the name
    [nm], optional white space [ws'], the opening brace, then [rest]. *)
Definition reads_header (s ws nm ws' rest : str) : Prop :=
  s = lit "@keyframes" ++ ws ++ nm ++ ws' ++ lbrace :: rest
  /\ ws <> [] /\ Forall (fun c => is_space c = true) ws
  /\ nm <> [] /\ Forall (fun c => name_char c = true) nm
  /\ Forall (fun c => is_space c = true) ws'.

(** The match object of a header read at [pos]. *)
Definition header_match (pos : nat) (ws nm ws' : str) : Match :=
  {| m_start := pos;
     m_end := pos + 10 + length ws + length nm + length ws' + 1;
     m_group := {| g_open := pos + 10 + length ws;
                   g_close := pos + 10 + length ws + length nm |} |}.

(** [rest] does not go on with a character of the class. *)
Definition stops (cls : char -> bool) (rest : str) : Prop :=
  match rest with
  | [] => True
  | c :: _ => cls c = false
  end.



(** The lines of the section of [n] in a report made from [dedup]. *)
Definition section_of (dedup : gmap (list N) KeyframesBlock) (n : str) : list str :=
  match dedup !! n with
  | Some b => section_lines n b
  | None => []
  end.


(** * Part II: the size-targeting compressor *)

Module Compressor.

(** Modelled from the spec: the color-channel mode of an image (true-color
    with or without alpha, or indexed); the compressor's program text is
    not among the sources. *)
Inductive Mode := TrueColor | TrueColorAlpha | Indexed.

(** Modelled from the spec: CompressionRequest, the immutable
    configuration (max width, initial quality, max size). *)
Record CompressionRequest := {
  max_width : Z;
  initial_quality : Z;
  max_size : Z
}.

(** Modelled from the spec: the ranges the data model gives for a request
    (max width > 0, initial quality 1-100, max size > 0). *)
Definition valid_request (req : CompressionRequest) : Prop :=
  0 < max_width req /\ 1 <= initial_quality req <= 100 /\ 0 < max_size req.

(** Modelled from the spec: CompressionResult (success flag, final
    quality, final dimensions, input and output byte sizes); the wording of
    the status message is not given and is left out. *)
Record CompressionResult := {
  success : bool;
  quality : Z;
  out_width : Z;
  out_height : Z;
  input_size : Z;
  output_size : Z
}.

(** Modelled from the spec: the minimum quality (20), the quality down to
    which 10-point decrements apply (50) and the width floor (400px). *)
Definition min_quality : Z := 20.
Definition quality_floor : Z := 50.
Definition width_floor : Z := 400.

(** Modelled from the spec: a factor of 0.8 on a pixel dimension.  The
    text fixes no rounding; dimensions are whole pixels and the product is
    truncated here. *)
Definition scale_down (x : Z) : Z := x * 4 / 5.

(** Modelled from the spec: [round(a / b)] for the new height of the
    preprocessing step, to the nearest integer. *)
Definition round_div (a b : Z) : Z := (2 * a + b) / (2 * b).

Section Model.

(** The image library the compressor calls: pixel data, compositing onto
    white, the resampling filter, and the byte size of the encoding of an
    image at a quality. *)
Variable Bitmap : Type.
Variable composite_on_white : Bitmap -> Bitmap.
Variable resample : Bitmap -> Z -> Z -> Bitmap.

(** Modelled from the spec: Image, a decoded bitmap with width, height and
    mode. *)
Record Image := {
  width : Z;
  height : Z;
  mode : Mode;
  bitmap : Bitmap
}.

Variable encoded_size : Image -> Z -> Z.

(** Modelled from the spec: a resize replaces the image by a resampled one
    of the given dimensions. *)
Definition resize (img : Image) (w h : Z) : Image :=
  {| width := w; height := h; mode := mode img;
     bitmap := resample (bitmap img) w h |}.

(** Modelled from the spec: preprocessing step 1, an image with
    transparency or in an indexed mode is composited onto opaque white. *)
Definition flatten (img : Image) : Image :=
  match mode img with
  | TrueColor => img
  | _ => {| width := width img; height := height img; mode := TrueColor;
            bitmap := composite_on_white (bitmap img) |}
  end.

(** Modelled from the spec: preprocessing step 2, an image wider than
    [max_width] is downscaled to that width, with new height
    [round(width_ratio * old_height)]. *)
Definition fit_width (img : Image) (req : CompressionRequest) : Image :=
  if max_width req <? width img then
    resize img (max_width req) (round_div (max_width req * height img) (width img))
  else img.

(** Modelled from the spec: preprocessing, performed once before the
    search: step 1, then step 2. *)
Definition preprocess (img : Image) (req : CompressionRequest) : Image :=
  fit_width (flatten img) req.

(** Modelled from the spec: what a run does, in order: an encoding
    attempt, a quality decrement, a dimension shrink, or the refusal to
    shrink below the width floor. *)
Inductive event :=
| Encoded (q : Z) (img : Image) (size : Z)
| Lowered (q : Z)
| Shrunk (img : Image)
| Refused.

(** Modelled from the spec: the result of step 2 of the loop, a success
    carrying this quality, these dimensions and this size. *)
Definition met (isize q : Z) (img : Image) : CompressionResult :=
  {| success := true; quality := q; out_width := width img;
     out_height := height img; input_size := isize;
     output_size := encoded_size img q |}.

(** Modelled from the spec: the search loop of section 4.1.  While
    [current_quality >= 20]: encode; on a size within the budget return the
    successful result; otherwise lower the quality by 10 when it is above
    50, else shrink by 0.8, leaving the loop when the width would fall below
    400.  [inr img] is the loop left without a result, with [current_image].
    [fuel] bounds the number of iterations. *)
Fixpoint search (fuel : nat) (req : CompressionRequest) (isize : Z)
    (current_quality : Z) (current_image : Image)
    : option ((CompressionResult + Image) * list event) :=
  match fuel with
  | O => None
  | S fuel' =>
      if min_quality <=? current_quality then
        let size := encoded_size current_image current_quality in
        let tried := Encoded current_quality current_image size in
        if size <=? max_size req then
          Some (inl (met isize current_quality current_image), [tried])
        else if quality_floor <? current_quality then
          match search fuel' req isize (current_quality - 10) current_image with
          | Some (r, evs) => Some (r, tried :: Lowered (current_quality - 10) :: evs)
          | None => None
          end
        else
          let w := scale_down (width current_image) in
          let h := scale_down (height current_image) in
          if w <? width_floor then Some (inr current_image, [tried; Refused])
          else
            let smaller := resize current_image w h in
            match search fuel' req isize current_quality smaller with
            | Some (r, evs) => Some (r, tried :: Shrunk smaller :: evs)
            | None => None
            end
      else Some (inr current_image, [])
  end.

(** Modelled from the spec: the fallback, [current_image] encoded at the
    minimum quality and reported as a success. *)
Definition fallback (isize : Z) (current_image : Image) : CompressionResult :=
  {| success := true; quality := min_quality;
     out_width := width current_image; out_height := height current_image;
     input_size := isize;
     output_size := encoded_size current_image min_quality |}.

(** Modelled from the spec: [compress(image, request)], preprocessing, then
    the search, then the fallback when the search left no result.  [isize]
    is the byte size of the input. *)
Definition compress_fuel (fuel : nat) (image : Image) (request : CompressionRequest)
    (isize : Z) : option (CompressionResult * list event) :=
  match search fuel request isize (initial_quality request) (preprocess image request) with
  | None => None
  | Some (inl r, evs) => Some (r, evs)
  | Some (inr current_image, evs) =>
      Some (fallback isize current_image,
            evs ++ [Encoded min_quality current_image
                      (encoded_size current_image min_quality)])
  end.

(** Modelled from the spec: a number of iterations that always suffices
    for the loop: one per quality point above 50, one per pixel of width,
    and the last test of the loop condition (see [search_terminates]). *)
Definition enough_fuel (q : Z) (img : Image) : nat :=
  S (Z.to_nat (q - quality_floor) + Z.to_nat (width img)).

(** Modelled from the spec: [compress] with that number of iterations. *)
Definition compress (image : Image) (request : CompressionRequest) (isize : Z)
    : option (CompressionResult * list event) :=
  compress_fuel (enough_fuel (initial_quality request) (preprocess image request))
    image request isize.

(** Modelled from the spec: the runs of the same loop as a relation, from
    a quality and an image to what the loop leaves and the events on the
    way; [search_runs] relates it to [search]. *)
Inductive runs (req : CompressionRequest) (isize : Z)
  : Z -> Image -> CompressionResult + Image -> list event -> Prop :=
| runs_below q img :
    q < min_quality ->
    runs req isize q img (inr img) []
| runs_met q img :
    min_quality <= q -> encoded_size img q <= max_size req ->
    runs req isize q img (inl (met isize q img)) [Encoded q img (encoded_size img q)]
| runs_lower q img res evs :
    min_quality <= q -> max_size req < encoded_size img q -> quality_floor < q ->
    runs req isize (q - 10) img res evs ->
    runs req isize q img res (Encoded q img (encoded_size img q) :: Lowered (q - 10) :: evs)
| runs_refuse q img :
    min_quality <= q -> max_size req < encoded_size img q -> q <= quality_floor ->
    scale_down (width img) < width_floor ->
    runs req isize q img (inr img) [Encoded q img (encoded_size img q); Refused]
| runs_shrink q img res evs :
    min_quality <= q -> max_size req < encoded_size img q -> q <= quality_floor ->
    width_floor <= scale_down (width img) ->
    runs req isize q (resize img (scale_down (width img)) (scale_down (height img))) res evs ->
    runs req isize q img res
      (Encoded q img (encoded_size img q)
       :: Shrunk (resize img (scale_down (width img)) (scale_down (height img)))
       :: evs).

(** The width an outcome of the loop is left with. *)
Definition final_width (res : CompressionResult + Image) : Z :=
  match res with
  | inl r => out_width r
  | inr img => width img
  end.

(** The qualities of the encodings of a run, the number of decrements and
    the number of shrinks. *)
Definition qualities (evs : list event) : list Z :=
  flat_map (fun e => match e with Encoded q _ _ => [q] | _ => [] end) evs.

Definition decrements (evs : list event) : nat :=
  length (List.filter (fun e => match e with Lowered _ => true | _ => false end) evs).

Definition shrinks (evs : list event) : nat :=
  length (List.filter (fun e => match e with Shrunk _ => true | _ => false end) evs).

End Model.

Arguments width {Bitmap} _.
Arguments height {Bitmap} _.
Arguments mode {Bitmap} _.
Arguments bitmap {Bitmap} _.
Arguments Build_Image {Bitmap} _ _ _ _.
Arguments Encoded {Bitmap} _ _ _.
Arguments Lowered {Bitmap} _.
Arguments Shrunk {Bitmap} _.
Arguments Refused {Bitmap}.
Arguments final_width {Bitmap} _.
Arguments qualities {Bitmap} _.
Arguments decrements {Bitmap} _.
Arguments shrinks {Bitmap} _.

(** A concrete image library for examples: no pixel data, and an encoding
    whose size is [width * height * quality / 100] bytes. *)
Definition toy_size (img : Image unit) (q : Z) : Z := width img * height img * q / 100.
Definition toy_compress := compress unit (fun b => b) (fun b _ _ => b) toy_size.
Definition toy_compress_fuel := compress_fuel unit (fun b => b) (fun b _ _ => b) toy_size.

Definition photo : Image unit := Build_Image 4000 3000 TrueColor tt.
Definition thumbnail : Image unit := Build_Image 800 600 TrueColorAlpha tt.
Definition defaults : CompressionRequest :=
  {| max_width := 1920; initial_quality := 85; max_size := 2097152 |}.

End Compressor.

(** * Proofs, part I: the extractor *)

Example extract_two :
  extract_keyframes_blocks
    (lit "a{} @keyframes spin { from {x:1} to {x:2} } @keyframes  b{} @keyframes c {")
    (lit "f.css")
  = [ {| name := lit "spin"; file := lit "f.css";
         css := lit "@keyframes spin { from {x:1} to {x:2} }" |};
      {| name := lit "b"; file := lit "f.css"; css := lit "@keyframes  b{}" |} ].
Proof. vm_compute. reflexivity. Qed.

Lemma net_app (u v : str) : net (u ++ v) = net u + net v.
Proof. induction u as [|c u IH]; simpl; lia. Qed.

Lemma occ_app (c : char) (u v : str) : occ c (u ++ v) = (occ c u + occ c v)%nat.
Proof. apply count_occ_app. Qed.

Lemma net_occ (s : str) : net s = Z.of_nat (occ lbrace s) - Z.of_nat (occ rbrace s).
Proof.
  unfold occ. induction s as [|c s IH]; [reflexivity|].
  cbn [net count_occ]. unfold delta.
  destruct (N.eqb_spec c lbrace) as [->|Hl].
  - destruct (N.eq_dec lbrace lbrace); [|congruence].
    destruct (N.eq_dec lbrace rbrace); [discriminate|]. lia.
  - destruct (N.eq_dec c lbrace); [congruence|].
    destruct (N.eqb_spec c rbrace) as [->|Hr].
    + destruct (N.eq_dec rbrace rbrace); [|congruence]. lia.
    + destruct (N.eq_dec c rbrace); [congruence|]. lia.
Qed.

Lemma occ_zero_Forall (c : char) (s : str) :
  Forall (fun x => x <> c) s -> occ c s = 0%nat.
Proof.
  unfold occ. induction 1 as [|x s Hx _ IH]; [reflexivity|].
  simpl. destruct (N.eq_dec x c); [contradiction|assumption].
Qed.

(** ** Slices *)

Lemma slice_nil (s : str) (i : nat) : slice s i i = [].
Proof. unfold slice. by rewrite Nat.sub_diag. Qed.


Lemma slice_cons (s : str) (i e : nat) (c : char) :
  s !! i = Some c -> (i < e)%nat -> slice s i e = c :: slice s (S i) e.
Proof.
  intros Hc Hlt. unfold slice. rewrite (drop_S s c i Hc).
  replace (e - i)%nat with (S (e - S i)) by lia. reflexivity.
Qed.

Lemma slice_split (s : str) (a b c : nat) :
  (a <= b)%nat -> (b <= c)%nat -> slice s a c = slice s a b ++ slice s b c.
Proof.
  intros Hab Hbc. unfold slice.
  replace (c - a)%nat with ((b - a) + (c - b))%nat by lia.
  rewrite <- take_take_drop, drop_drop.
  by replace (a + (b - a))%nat with b by lia.
Qed.

Lemma slice_substring (s : str) (a b : nat) :
  exists pre post, s = pre ++ slice s a b ++ post.
Proof.
  exists (take a s), (drop (b - a) (drop a s)). unfold slice.
  by rewrite take_drop, take_drop.
Qed.

Lemma slice_length (s : str) (a b : nat) :
  (a <= b)%nat -> (b <= length s)%nat -> length (slice s a b) = (b - a)%nat.
Proof.
  intros Hab Hb. unfold slice. rewrite length_take, length_drop. lia.
Qed.

Lemma slice_drop_app (s u v : str) (a : nat) :
  drop a s = u ++ v -> slice s a (a + length u) = u.
Proof.
  intros H. unfold slice. rewrite H.
  replace (a + length u - a)%nat with (length u) by lia.
  apply take_app_length.
Qed.

(** ** The loop *)

Lemma scan_sound (fuel : nat) (text : str) : forall (i : nat) (d : Z) (e : nat),
  scan fuel text i d = Returned (Some e) ->
  (i < e <= length text)%nat
  /\ text !! (e - 1)%nat = Some rbrace
  /\ d + net (slice text i e) = 0
  /\ (1 <= d -> forall j, (i <= j < e)%nat -> 1 <= d + net (slice text i j)).
Proof.
  induction fuel as [|fuel IH]; intros i d e H; [discriminate|].
  cbn [scan] in H.
  destruct (Nat.ltb_spec i (length text)) as [Hi|Hi]; [|discriminate].
  destruct (text !! i) as [c|] eqn:Hc; [|discriminate].
  assert (Hstep : forall d', scan fuel text (i + 1) d' = Returned (Some e) ->
            d' = d + delta c ->
            (1 <= d -> 1 <= d') ->
            (i < e <= length text)%nat
            /\ text !! (e - 1)%nat = Some rbrace
            /\ d + net (slice text i e) = 0
            /\ (1 <= d -> forall j, (i <= j < e)%nat -> 1 <= d + net (slice text i j))).
  { intros d' Hs Hd' Hpos. replace (i + 1)%nat with (S i) in Hs by lia.
    destruct (IH _ _ _ Hs) as (Hr & Hlast & Hnet & Hin).
    split; [lia|]. split; [exact Hlast|].
    split.
    - rewrite (slice_cons _ _ _ _ Hc) by lia. cbn [net]. lia.
    - intros Hd j Hj. destruct (decide (j = i)) as [->|Hne].
      + rewrite slice_nil. simpl. lia.
      + rewrite (slice_cons _ _ _ _ Hc) by lia. cbn [net].
        specialize (Hin (Hpos Hd) j ltac:(lia)). lia. }
  unfold delta in Hstep.
  destruct (N.eqb_spec c lbrace) as [->|Hl].
  - apply (Hstep _ H); simpl; lia.
  - destruct (N.eqb_spec c rbrace) as [->|Hr].
    + cbv zeta in H. destruct (Z.eqb_spec (d - 1) 0) as [Hz|Hz].
      * injection H as <-. replace (i + 1 - 1)%nat with i by lia.
        split; [lia|]. split; [exact Hc|]. split.
        -- rewrite (slice_cons _ _ _ _ Hc) by lia.
           replace (S i) with (i + 1)%nat by lia. rewrite slice_nil.
           cbn. lia.
        -- intros Hd j Hj. replace j with i by lia. rewrite slice_nil. simpl. lia.
      * apply (Hstep _ H); simpl; lia.
    + apply (Hstep _ H); simpl; lia.
Qed.

Lemma scan_terminates (fuel : nat) (text : str) : forall (i : nat) (d : Z),
  (length text - i < fuel)%nat -> exists r, scan fuel text i d = Returned r.
Proof.
  induction fuel as [|fuel IH]; intros i d Hf; [lia|].
  cbn [scan].
  destruct (Nat.ltb_spec i (length text)) as [Hi|Hi]; [|by eexists].
  destruct (text !! i) as [c|] eqn:Hc; [|apply lookup_ge_None in Hc; lia].
  destruct (c =? lbrace)%N; [apply IH; lia|].
  destruct (c =? rbrace)%N; [|apply IH; lia].
  cbv zeta. destruct (d - 1 =? 0); [by eexists|apply IH; lia].
Qed.

Lemma scan_fuel_mono (fuel : nat) (text : str) : forall (fuel' i : nat) (d : Z) r,
  scan fuel text i d = Returned r -> (fuel <= fuel')%nat ->
  scan fuel' text i d = Returned r.
Proof.
  induction fuel as [|fuel IH]; intros fuel' i d r H Hle; [discriminate|].
  destruct fuel' as [|fuel']; [lia|].
  cbn [scan] in *.
  destruct (i <? length text)%nat; [|exact H].
  destruct (text !! i) as [c|]; [|discriminate].
  destruct (c =? lbrace)%N; [apply IH; [exact H|lia]|].
  destruct (c =? rbrace)%N; [|apply IH; [exact H|lia]].
  cbv zeta in *. destruct (d - 1 =? 0); [exact H|apply IH; [exact H|lia]].
Qed.

(** ** The matcher *)

Lemma star_sound {R : Type} (cls : char -> bool) (k : nat -> str -> option R) :
  forall (s : str) (pos : nat) (r : R),
  star cls k pos s = Some r ->
  exists u rest, s = u ++ rest /\ Forall (fun c => cls c = true) u
                 /\ k (pos + length u)%nat rest = Some r.
Proof.
  induction s as [|c s IH]; intros pos r H.
  - exists [], []. simpl in *. rewrite Nat.add_0_r. auto.
  - cbn [star] in H. destruct (cls c) eqn:Hc.
    + destruct (star cls k (S pos) s) as [r'|] eqn:Hs.
      * injection H as ->. destruct (IH _ _ Hs) as (u & rest & -> & Hu & Hk).
        exists (c :: u), rest. split; [reflexivity|]. split; [by constructor|].
        simpl. by replace (pos + S (length u))%nat with (S pos + length u)%nat by lia.
      * exists [], (c :: s). simpl. rewrite Nat.add_0_r. auto.
    + exists [], (c :: s). simpl. rewrite Nat.add_0_r. auto.
Qed.

(** What a match of the pattern looks like: the keyword, white space, a
    name free of white space and of the opening brace, optional white space, and the opening brace. *)
Lemma keyframes_re_sound (pos : nat) (s : str) (g : caps) (e : nat) (g' : caps) :
  run keyframes_re pos s g = Some (e, g') ->
  exists ws nm ws' rest,
    s = lit "@keyframes" ++ ws ++ nm ++ ws' ++ lbrace :: rest
    /\ ws <> [] /\ Forall (fun c => is_space c = true) ws
    /\ nm <> [] /\ Forall (fun c => name_char c = true) nm
    /\ Forall (fun c => is_space c = true) ws'
    /\ e = (pos + 10 + length ws + length nm + length ws' + 1)%nat
    /\ g_open g' = (pos + 10 + length ws)%nat
    /\ g_close g' = (pos + 10 + length ws + length nm)%nat.
Proof.
  intros H. unfold keyframes_re in H. cbn [lit list_ascii_of_string map literal app] in H.
  cbn [run] in H.
  do 10 (destruct s as [|? s]; [discriminate|];
         match type of H with
         | (if (?a =? ?c)%N then _ else _) = _ =>
             destruct (N.eqb_spec a c) as [<-|]; [|discriminate]
         end).
  destruct s as [|w s]; [discriminate|].
  destruct (is_space w) eqn:Hw; [|discriminate].
  apply star_sound in H as (u & r1 & -> & Hu & H).
  cbn [run] in H.
  destruct r1 as [|n r1]; [discriminate|].
  destruct (name_char n) eqn:Hn; [|discriminate].
  apply star_sound in H as (v & r2 & -> & Hv & H).
  cbn [run] in H.
  apply star_sound in H as (x & r3 & -> & Hx & H).
  cbn [run] in H.
  destruct r3 as [|b r3]; [discriminate|].
  destruct (N.eqb_spec lbrace b) as [<-|]; [|discriminate].
  injection H as <- <-.
  exists (w :: u), (n :: v), x, r3.
  split; [reflexivity|]. split; [discriminate|]. split; [by constructor|].
  split; [discriminate|]. split; [by constructor|]. split; [exact Hx|].
  cbn [g_open g_close length]. repeat split; lia.
Qed.

(** Every match yielded by [finditer] is a match of the pattern at its
    own start. *)
Lemma finditer_from_sound (p : list node) (text : str) (m : Match) :
  forall (s : str) (skip pos : nat),
  drop pos text = s ->
  m ∈ finditer_from p skip pos s ->
  match_at p (m_start m) (drop (m_start m) text) = Some m.
Proof.
  induction s as [|c s IH]; intros skip pos Hs Hm; [by apply elem_of_nil in Hm|].
  assert (Hs' : drop (S pos) text = s).
  { replace (S pos) with (pos + 1)%nat by lia. by rewrite <- drop_drop, Hs. }
  cbn [finditer_from] in Hm. destruct skip as [|skip]; [|by eapply IH].
  destruct (match_at p pos (c :: s)) as [m0|] eqn:Hm0; [|by eapply IH].
  apply elem_of_cons in Hm as [->|Hm]; [|by eapply IH].
  assert (m_start m0 = pos) as ->.
  { unfold match_at in Hm0. destruct (run p pos (c :: s) _) as [[? ?]|]; [|discriminate].
    by injection Hm0 as <-. }
  by rewrite Hs.
Qed.

Lemma finditer_sound (p : list node) (text : str) (m : Match) :
  m ∈ finditer p text ->
  match_at p (m_start m) (drop (m_start m) text) = Some m.
Proof. intros Hm. by eapply (finditer_from_sound p text m text 0%nat 0%nat). Qed.

(** ** Where a block comes from *)

Lemma collect_origin (fuel : nat) (text src : str) (b : KeyframesBlock) :
  forall (ms : list Match) (acc blocks : list KeyframesBlock),
  collect fuel text src ms acc = Returned blocks ->
  b ∈ blocks ->
  b ∈ acc \/ exists m, m ∈ ms /\ block_for fuel text src m = Returned (Some b).
Proof.
  induction ms as [|m ms IH]; intros acc blocks H Hb; cbn [collect] in H.
  - injection H as <-. by left.
  - destruct (block_for fuel text src m) as [[b0|]| |] eqn:Hm; try discriminate.
    + destruct (IH _ _ H Hb) as [Hacc|(m' & Hm' & Hb')].
      * apply elem_of_app in Hacc as [Hacc|Hacc]; [by left|].
        apply list_elem_of_singleton in Hacc as ->.
        right. exists m. split; [apply list_elem_of_here|exact Hm].
      * right. exists m'. split; [by apply list_elem_of_further|exact Hb'].
    + destruct (IH _ _ H Hb) as [Hacc|(m' & Hm' & Hb')]; [by left|].
      right. exists m'. split; [by apply list_elem_of_further|exact Hb'].
Qed.

Lemma extract_origin (text src : str) (b : KeyframesBlock) :
  b ∈ extract_keyframes_blocks text src ->
  exists fuel m, m ∈ finditer keyframes_re text
                 /\ block_for fuel text src m = Returned (Some b).
Proof.
  unfold extract_keyframes_blocks, extract_keyframes_blocks_fuel. intros Hb.
  destruct (collect _ text src _ []) as [blocks| |] eqn:Hc;
    try (by apply elem_of_nil in Hb).
  destruct (collect_origin _ _ _ _ _ _ _ Hc Hb) as [Hnil|(m & Hm & Hbm)].
  - by apply elem_of_nil in Hnil.
  - eauto.
Qed.

(** ** The shape of an extracted block *)

Lemma space_not_brace (c : char) : is_space c = true -> c <> lbrace /\ c <> rbrace.
Proof. intros H. split; intros ->; discriminate. Qed.

Lemma name_char_not_lbrace (c : char) : name_char c = true -> c <> lbrace.
Proof.
  unfold name_char. intros H ->. rewrite N.eqb_refl, orb_true_r in H. discriminate.
Qed.

Lemma take_slice (s : str) (a b k : nat) :
  (a + k <= b)%nat -> take k (slice s a b) = slice s a (a + k).
Proof.
  intros H. unfold slice. rewrite take_take.
  f_equal. lia.
Qed.

Lemma slice_middle (s pre u v : str) (a : nat) :
  drop a s = pre ++ u ++ v ->
  slice s (a + length pre) (a + length pre + length u) = u.
Proof.
  intros H. unfold slice. rewrite <- drop_drop, H, drop_app_length.
  replace (a + length pre + length u - (a + length pre))%nat with (length u) by lia.
  apply take_app_length.
Qed.

Lemma block_for_shape (fuel : nat) (text src : str) (m : Match) (b : KeyframesBlock) :
  m ∈ finditer keyframes_re text ->
  block_for fuel text src m = Returned (Some b) ->
  block_shape text src b.
Proof.
  intros Hm Hb. apply finditer_sound in Hm. unfold match_at in Hm.
  destruct (run keyframes_re _ _ _) as [[e0 g0]|] eqn:Hrun; [|discriminate].
  apply keyframes_re_sound in Hrun
    as (ws & nm & ws' & rest & Hdrop & Hws0 & Hws & Hnm0 & Hnm & Hws' & He0 & Hgo & Hgc).
  destruct m as [st en g]. cbn [m_start] in *. injection Hm as <- <-.
  unfold block_for in Hb. cbn [m_start m_end m_group] in Hb.
  set (head := lit "@keyframes" ++ ws ++ nm ++ ws') in *.
  assert (Hhead : drop st text = head ++ lbrace :: rest).
  { rewrite Hdrop. unfold head. by rewrite <- !app_assoc. }
  assert (Hlen : length head = (10 + length ws + length nm + length ws')%nat).
  { unfold head. rewrite !length_app. change (length (lit "@keyframes")) with 10%nat. lia. }
  set (i := (st + length head)%nat).
  replace (e0 - 1)%nat with i in Hb by (unfold i; lia).
  assert (Hi : text !! i = Some lbrace).
  { unfold i. rewrite <- lookup_drop, Hhead. apply list_lookup_middle. reflexivity. }
  destruct fuel as [|fuel]; [discriminate|]. cbn [scan] in Hb.
  destruct (Nat.ltb_spec i (length text)) as [Hlt|Hge];
    [|apply lookup_ge_None_2 in Hge; congruence].
  rewrite Hi in Hb. change (lbrace =? lbrace)%N with true in Hb. cbv iota in Hb.
  replace (i + 1)%nat with (S i) in Hb by lia. change (0 + 1) with 1 in Hb.
  destruct (scan fuel text (S i) 1) as [[e|]| |] eqn:Hscan; try discriminate.
  injection Hb as <-. cbn [name file css].
  apply scan_sound in Hscan as (Hr & Hlast & Hnet & Hpos).
  specialize (Hpos ltac:(lia)).
  assert (Hname : slice text g0.(g_open) g0.(g_close) = nm).
  { rewrite Hgo, Hgc.
    replace (st + 10 + length ws)%nat with (st + length (lit "@keyframes" ++ ws))%nat
      by (rewrite length_app; simpl; lia).
    apply slice_middle with (v := ws' ++ lbrace :: rest).
    rewrite Hdrop. by rewrite <- !app_assoc. }
  assert (Hh : slice text st i = head).
  { unfold i. apply slice_drop_app with (v := lbrace :: rest). exact Hhead. }
  assert (Hbody : slice text i e = lbrace :: slice text (S i) (e - 1) ++ [rbrace]).
  { rewrite (slice_cons _ _ _ _ Hi) by lia. f_equal.
    rewrite (slice_split text (S i) (e - 1) e) by lia. f_equal.
    rewrite (slice_cons _ _ _ _ Hlast) by lia.
    replace (S (e - 1)) with e by lia. by rewrite slice_nil. }
  assert (Hcss : slice text st e = head ++ slice text i e).
  { rewrite (slice_split text st i e) by (unfold i; lia). by rewrite Hh. }
  split; [reflexivity|]. split; [apply slice_substring|].
  rewrite Hname. split; [exact Hnm0|]. split; [exact Hnm|].
  exists head, (slice text (S i) (e - 1)). rewrite <- Hbody. split; [exact Hcss|].
  split; [by exists ws, ws'|].
  split.
  - pose proof (net_occ (slice text i e)) as Ho.
    rewrite (slice_cons _ _ _ _ Hi) in Ho by lia. cbn [net] in Ho.
    change (delta lbrace) with 1 in Ho.
    rewrite <- (slice_cons _ _ _ _ Hi) in Ho by lia. lia.
  - intros k Hk. rewrite slice_length in Hk by lia.
    rewrite take_slice by lia.
    rewrite (slice_cons _ _ _ _ Hi) by lia. cbn [net]. change (delta lbrace) with 1.
    specialize (Hpos (i + k)%nat ltac:(lia)). lia.
Qed.

Lemma occ_lbrace_header (head nm : str) :
  header_of head nm -> Forall (fun c => name_char c = true) nm ->
  occ lbrace head = 0%nat /\ occ rbrace head = occ rbrace nm.
Proof.
  intros (ws & ws' & -> & _ & Hws & Hws') Hnm.
  assert (Hsp : forall (c : char) (l : str), c = lbrace \/ c = rbrace ->
            Forall (fun x => is_space x = true) l -> occ c l = 0%nat).
  { intros c l Hc Hl. apply occ_zero_Forall. eapply Forall_impl; [exact Hl|].
    intros x Hx. destruct (space_not_brace x Hx). destruct Hc; congruence. }
  rewrite !occ_app.
  rewrite (Hsp lbrace ws), (Hsp lbrace ws'), (Hsp rbrace ws), (Hsp rbrace ws') by auto.
  rewrite (occ_zero_Forall lbrace nm).
  2:{ eapply Forall_impl; [exact Hnm|]. intros x. apply name_char_not_lbrace. }
  change (occ lbrace (lit "@keyframes")) with 0%nat.
  change (occ rbrace (lit "@keyframes")) with 0%nat. lia.
Qed.

Lemma block_shape_counts (text src : str) (b : KeyframesBlock) :
  block_shape text src b ->
  occ rbrace (css b) = (occ lbrace (css b) + occ rbrace (name b))%nat.
Proof.
  intros (_ & _ & _ & Hnm & head & inner & Hcss & Hhead & Hbal & _).
  destruct (occ_lbrace_header _ _ Hhead Hnm) as [Hl Hr].
  rewrite Hcss, !occ_app. lia.
Qed.

(** C1, as amended: every block returned by [extract_keyframes_blocks] carries
    the source file, its [css] is a contiguous piece of [css_text] made of
    the keyword "@keyframes", white space, the captured name, optional
    white space, and a body that runs from the opening brace to a closing
    brace; the body has as many opening as closing braces and its depth is
    positive until its last character.  The whole [css] has as many closing
    braces as opening ones plus the closing braces of the name, so it is
    balanced exactly when the name has none. *)
Theorem extract_keyframes_blocks_shape (css_text source_file : str) :
  Forall (fun b =>
            block_shape css_text source_file b
            /\ occ rbrace (css b) = (occ lbrace (css b) + occ rbrace (name b))%nat)
         (extract_keyframes_blocks css_text source_file).
Proof.
  apply Forall_forall. intros b Hb.
  destruct (extract_origin _ _ _ Hb) as (fuel & m & Hm & Hbm).
  assert (Hs : block_shape css_text source_file b) by (eapply block_for_shape; eauto).
  split; [exact Hs|]. eapply block_shape_counts; exact Hs.
Qed.

(** C1, as stated, fails: a name may hold a closing brace, and then the
    [css] of the block has more closing than opening braces. *)
Lemma extract_keyframes_blocks_unbalanced :
  extract_keyframes_blocks (lit "@keyframes a} {}") (lit "f.css")
  = [ {| name := lit "a}"; file := lit "f.css"; css := lit "@keyframes a} {}" |} ]
  /\ occ lbrace (lit "@keyframes a} {}") = 1%nat
  /\ occ rbrace (lit "@keyframes a} {}") = 2%nat.
Proof. vm_compute. repeat split. Qed.

(** ** Termination, and blocks left open *)

Lemma block_for_enough (fuel : nat) (text src : str) (m : Match) :
  (length text < fuel)%nat ->
  block_for fuel text src m = Returned (block_of text src m).
Proof.
  intros Hf. unfold block_of, block_for.
  destruct (scan_terminates (S (length text)) text (m_end m - 1) 0 ltac:(lia)) as [r Hr].
  rewrite Hr, (scan_fuel_mono _ _ fuel _ _ _ Hr) by lia.
  by destruct r.
Qed.

Lemma collect_enough (fuel : nat) (text src : str) :
  (length text < fuel)%nat ->
  forall (ms : list Match) (acc : list KeyframesBlock),
  collect fuel text src ms acc = Returned (acc ++ omap (block_of text src) ms).
Proof.
  intros Hf. induction ms as [|m ms IH]; intros acc.
  - simpl. by rewrite app_nil_r.
  - cbn [collect]. rewrite block_for_enough by exact Hf.
    change (omap (block_of text src) (m :: ms))
      with (match block_of text src m with
            | Some b => b :: omap (block_of text src) ms
            | None => omap (block_of text src) ms
            end).
    destruct (block_of text src m) as [b|]; rewrite IH; [|reflexivity].
    by rewrite <- app_assoc.
Qed.

Lemma unclosed_no_block (text src : str) (m : Match) :
  unclosed text m -> block_of text src m = None.
Proof.
  intros Hu. unfold block_of, block_for.
  destruct (scan _ text _ 0) as [[e|]| |] eqn:Hs; try reflexivity.
  apply scan_sound in Hs as (Hr & _ & Hnet & _).
  exfalso. apply (Hu e); lia.
Qed.

Lemma extract_fuel_enough (fuel : nat) (text src : str) :
  (length text < fuel)%nat ->
  extract_keyframes_blocks_fuel fuel text src
  = Returned (omap (block_of text src) (finditer keyframes_re text)).
Proof.
  intros Hlt. unfold extract_keyframes_blocks_fuel.
  by rewrite collect_enough by exact Hlt.
Qed.

Lemma extract_keyframes_blocks_omap (text src : str) :
  extract_keyframes_blocks text src
  = omap (block_of text src) (finditer keyframes_re text).
Proof. unfold extract_keyframes_blocks. by rewrite extract_fuel_enough by lia. Qed.

(** C8: with an iteration budget above [len(css_text)] the inner loop ends
    from any index and depth, the function returns (it neither raises nor
    runs out of budget), and what it returns is the list of the blocks of
    the matches, in order, a match whose brace is never closed giving no
    block. *)
Theorem extract_keyframes_blocks_total (css_text source_file : str) (fuel : nat) :
  (length css_text < fuel)%nat ->
  (forall i d, exists r, scan fuel css_text i d = Returned r)
  /\ extract_keyframes_blocks_fuel fuel css_text source_file
     = Returned (extract_keyframes_blocks css_text source_file)
  /\ extract_keyframes_blocks css_text source_file
     = omap (block_of css_text source_file) (finditer keyframes_re css_text)
  /\ (forall m, unclosed css_text m -> block_of css_text source_file m = None).
Proof.
  intros Hf.
  split; [intros i d; apply scan_terminates; lia|].
  split; [by rewrite extract_keyframes_blocks_omap, extract_fuel_enough|].
  split; [apply extract_keyframes_blocks_omap|].
  intros m. apply unclosed_no_block.
Qed.

Lemma extract_keyframes_blocks_total_witness :
  (length (lit "@keyframes a{b{}} @keyframes c {d{}") < 40)%nat
  /\ extract_keyframes_blocks_fuel 40 (lit "@keyframes a{b{}} @keyframes c {d{}") (lit "f.css")
     = Returned [ {| name := lit "a"; file := lit "f.css"; css := lit "@keyframes a{b{}}" |} ]
  /\ exists m,
       finditer keyframes_re (lit "@keyframes a{b{}} @keyframes c {d{}") !! 1%nat = Some m
       /\ unclosed (lit "@keyframes a{b{}} @keyframes c {d{}") m
       /\ block_of (lit "@keyframes a{b{}} @keyframes c {d{}") (lit "f.css") m = None.
Proof.
  split; [vm_compute; lia|].
  destruct (extract_keyframes_blocks_total
              (lit "@keyframes a{b{}} @keyframes c {d{}") (lit "f.css") 40)
    as (_ & H & _ & Hu); [vm_compute; lia|].
  split; [rewrite H; vm_compute; reflexivity|].
  eexists. split; [vm_compute; reflexivity|].
  assert (Hopen : unclosed (lit "@keyframes a{b{}} @keyframes c {d{}")
                    {| m_start := 18; m_end := 32;
                       m_group := {| g_open := 29; g_close := 30 |} |}).
  { intros e He. cbn [m_end] in *.
    change (length (lit "@keyframes a{b{}} @keyframes c {d{}")) with 35%nat in He.
    assert (Hc : e = 32%nat \/ e = 33%nat \/ e = 34%nat \/ e = 35%nat) by lia.
    destruct Hc as [->|[->|[->| ->]]]; vm_compute; discriminate. }
  split; [exact Hopen|]. exact (Hu _ Hopen).
Defined.

(** ** The order of strings and [sorted] *)

Lemma str_leb_total (a : str) : forall b, str_leb a b = true \/ str_leb b a = true.
Proof.
  induction a as [|x a IH]; intros [|y b]; cbn [str_leb]; auto.
  destruct (N.ltb_spec x y), (N.ltb_spec y x); auto; try lia.
  assert (x = y) as -> by lia. rewrite N.eqb_refl. apply IH.
Qed.

Lemma str_leb_trans (a : str) : forall b c,
  str_leb a b = true -> str_leb b c = true -> str_leb a c = true.
Proof.
  induction a as [|x a IH]; intros [|y b] [|z c]; cbn [str_leb]; auto; try discriminate.
  destruct (N.ltb_spec x y) as [Hxy|Hxy].
  - intros _. destruct (N.ltb_spec y z) as [Hyz|Hyz].
    + intros _. destruct (N.ltb_spec x z); [reflexivity|lia].
    + destruct (N.eqb_spec y z) as [->|]; [|discriminate].
      intros _. destruct (N.ltb_spec x z); [reflexivity|lia].
  - destruct (N.eqb_spec x y) as [->|]; [|discriminate]. intros Hab.
    destruct (N.ltb_spec y z); [reflexivity|].
    destruct (N.eqb_spec y z); [|discriminate]. by apply IH.
Qed.

Lemma str_leb_antisym (a : str) : forall b,
  str_leb a b = true -> str_leb b a = true -> a = b.
Proof.
  induction a as [|x a IH]; intros [|y b]; cbn [str_leb]; auto; try discriminate.
  destruct (N.ltb_spec x y) as [Hxy|Hxy].
  - intros _. destruct (N.ltb_spec y x); [lia|].
    destruct (N.eqb_spec y x); [lia|discriminate].
  - destruct (N.eqb_spec x y) as [->|]; [|discriminate].
    rewrite N.ltb_irrefl, N.eqb_refl. intros H1 H2. f_equal. by apply IH.
Qed.

#[global] Instance str_le_total : Total str_le.
Proof. intros a b. apply str_leb_total. Qed.

#[global] Instance str_le_trans : Transitive str_le.
Proof. intros a b c. apply str_leb_trans. Qed.

#[global] Instance str_le_antisym : AntiSymm (=) str_le.
Proof. intros a b. apply str_leb_antisym. Qed.

Lemma sorted_Sorted (l : list str) : Sorted str_le (sorted l).
Proof. apply Sorted_merge_sort, _. Qed.

Lemma sorted_Permutation (l : list str) : sorted l ≡ₚ l.
Proof. apply merge_sort_Permutation. Qed.

(** Any sorted rearrangement of [l] is [sorted l]: the model of [sorted]
    does not depend on the sorting algorithm. *)
Lemma sorted_is_the_sort (l l' : list str) :
  Sorted str_le l' -> l' ≡ₚ l -> l' = sorted l.
Proof.
  intros Hs Hp. apply (Sorted_unique str_le); [exact Hs|apply sorted_Sorted|].
  by rewrite Hp, sorted_Permutation.
Qed.

Lemma Sorted_take (l : list str) (n : nat) : Sorted str_le l -> Sorted str_le (take n l).
Proof.
  intros Hs. apply Sorted_StronglySorted in Hs; [|apply _].
  apply StronglySorted_Sorted. revert n.
  induction Hs as [|x l Hs IH Hx]; intros [|n]; cbn [take]; try constructor.
  - apply IH.
  - eapply Forall_take in Hx. exact Hx.
Qed.

(** ** [setdefault] and the first block of a name *)

Lemma fold_setdefault (blocks : list KeyframesBlock) :
  forall (d : gmap (list N) KeyframesBlock) (n : str),
  fold_left (fun d b => setdefault (name b) b d) blocks d !! n
  = match d !! n with
    | Some b => Some b
    | None => first_named n blocks
    end.
Proof.
  induction blocks as [|b blocks IH]; intros d n; cbn [fold_left first_named].
  - by destruct (d !! n).
  - rewrite IH. unfold setdefault.
    destruct (d !! name b) as [b0|] eqn:Hb.
    + destruct (d !! n) as [b1|] eqn:Hn; [reflexivity|].
      destruct (decide (name b = n)) as [<-|]; [congruence|reflexivity].
    + destruct (decide (name b = n)) as [<-|Hne].
      * by rewrite lookup_insert_eq, Hb.
      * by rewrite lookup_insert_ne.
Qed.

Lemma deduplicate_lookup (blocks : list KeyframesBlock) (n : str) :
  deduplicate blocks !! n = first_named n blocks.
Proof. unfold deduplicate. by rewrite fold_setdefault, lookup_empty. Qed.

Lemma first_named_Some (n : str) (blocks : list KeyframesBlock) (b : KeyframesBlock) :
  first_named n blocks = Some b <->
  exists l1 l2, blocks = l1 ++ b :: l2 /\ name b = n
                /\ Forall (fun b' => name b' <> n) l1.
Proof.
  split.
  - revert b. induction blocks as [|b0 blocks IH]; intros b H; [discriminate|].
    cbn [first_named] in H. destruct (decide (name b0 = n)) as [Hn|Hn].
    + injection H as <-. exists [], blocks. auto.
    + destruct (IH _ H) as (l1 & l2 & -> & Hb & Hl1).
      exists (b0 :: l1), l2. auto.
  - intros (l1 & l2 & -> & Hb & Hl1).
    induction Hl1 as [|b0 l1 Hb0 _ IH]; cbn [first_named app].
    + by rewrite decide_True.
    + by rewrite decide_False.
Qed.

Lemma first_named_None (n : str) (blocks : list KeyframesBlock) :
  first_named n blocks = None <-> n ∉ map name blocks.
Proof.
  induction blocks as [|b blocks IH]; cbn [first_named map].
  - split; [intros _; apply not_elem_of_nil|reflexivity].
  - rewrite not_elem_of_cons. destruct (decide (name b = n)) as [Hn|Hn].
    + split; [discriminate|]. intros [Hne _]. congruence.
    + rewrite IH. split; [intros H; split; [congruence|exact H]|by intros [_ H]].
Qed.

(** ** The order of the matches *)

Lemma finditer_from_ordered (p : list node) : forall (s : str) (skip pos : nat),
  Forall (fun m => (pos + skip <= m_start m)%nat) (finditer_from p skip pos s)
  /\ StronglySorted precedes (finditer_from p skip pos s).
Proof.
  induction s as [|c s IH]; intros skip pos; cbn [finditer_from].
  - split; constructor.
  - destruct skip as [|skip].
    + destruct (match_at p pos (c :: s)) as [m|] eqn:Hm.
      * assert (Hst : m_start m = pos).
        { unfold match_at in Hm. destruct (run p pos (c :: s) _) as [[? ?]|]; [|discriminate].
          by injection Hm as <-. }
        destruct (IH (m_end m - pos - 1)%nat (S pos)) as [Hf Hs].
        split.
        -- constructor; [lia|]. eapply Forall_impl; [exact Hf|]. intros; simpl in *; lia.
        -- constructor; [exact Hs|]. eapply Forall_impl; [exact Hf|].
           intros m' Hm'. unfold precedes. simpl in Hm'. lia.
      * destruct (IH 0%nat (S pos)) as [Hf Hs]. split; [|exact Hs].
        eapply Forall_impl; [exact Hf|]. intros; simpl in *; lia.
    + destruct (IH skip (S pos)) as [Hf Hs]. split; [|exact Hs].
      eapply Forall_impl; [exact Hf|]. intros; simpl in *; lia.
Qed.

Lemma finditer_ordered (p : list node) (s : str) : StronglySorted precedes (finditer p s).
Proof. apply finditer_from_ordered. Qed.

(** ** The report of [main] *)

Lemma keys_elem_of (d : gmap (list N) KeyframesBlock) (n : str) :
  n ∈ map fst (map_to_list d) <-> is_Some (d !! n).
Proof.
  rewrite list_elem_of_fmap. split.
  - intros ([k b] & -> & H). apply elem_of_map_to_list in H. by exists b.
  - intros [b H]. exists (n, b). split; [reflexivity|]. by apply elem_of_map_to_list.
Qed.

Lemma deduplicate_size (blocks : list KeyframesBlock) :
  size (deduplicate blocks) = length (remove_dups (map name blocks)).
Proof.
  rewrite <- length_map_to_list, <- (length_map fst).
  apply Permutation_length, NoDup_Permutation.
  - apply NoDup_fst_map_to_list.
  - apply NoDup_remove_dups.
  - intros n. rewrite keys_elem_of, elem_of_remove_dups, deduplicate_lookup.
    rewrite <- not_eq_None_Some, first_named_None.
    split; [apply dec_stable|auto].
Qed.

Lemma sorted_keys_elem_of (d : gmap (list N) KeyframesBlock) (n : str) :
  n ∈ sorted_keys d <-> is_Some (d !! n).
Proof. unfold sorted_keys. by rewrite sorted_Permutation, keys_elem_of. Qed.

Lemma sorted_keys_NoDup (d : gmap (list N) KeyframesBlock) : NoDup (sorted_keys d).
Proof. unfold sorted_keys. rewrite sorted_Permutation. apply NoDup_fst_map_to_list. Qed.

Lemma sorted_keys_length (d : gmap (list N) KeyframesBlock) :
  length (sorted_keys d) = size d.
Proof.
  unfold sorted_keys. by rewrite sorted_Permutation, length_map, length_map_to_list.
Qed.

Lemma sections_returns (d : gmap (list N) KeyframesBlock) :
  forall (names : list str) (acc : list (list str)),
  Forall (fun n => is_Some (d !! n)) names ->
  exists secs,
    sections d names acc = Returned (acc ++ secs)
    /\ Forall2 (fun n sec => exists b, d !! n = Some b /\ sec = section_lines n b)
         names secs.
Proof.
  induction names as [|n names IH]; intros acc Hall.
  - exists []. split; [simpl; by rewrite app_nil_r|constructor].
  - inversion Hall as [|? ? [b Hb] Hrest]; subst.
    destruct (IH (acc ++ [section_lines n b]) Hrest) as (secs & Hs & Hf).
    exists (section_lines n b :: secs). cbn [sections]. rewrite Hb, Hs.
    split; [by rewrite <- app_assoc|]. constructor; [by exists b|exact Hf].
Qed.

Lemma limited_keys (d : gmap (list N) KeyframesBlock) (limit : Z) :
  Forall (fun n => is_Some (d !! n)) (limited (sorted_keys d) limit).
Proof.
  apply Forall_forall. intros n Hn. apply sorted_keys_elem_of.
  unfold limited in Hn. eapply elem_of_take in Hn. 
  destruct Hn as (i & Hi & _). eapply list_elem_of_lookup_2. exact Hi.
Qed.

(** What [main] returns, in one statement that the theorems below read
    off: it never raises, and the report is made of the header and one
    section per name of the limited, sorted list of keys. *)
Lemma main_returns (globbed : list str) (read_text : str -> str)
    (abs_folder : str) (limit : Z) :
  let all_blocks := gather read_text (sorted globbed) in
  let dedup := deduplicate all_blocks in
  exists rep,
    main globbed read_text abs_folder limit = Returned rep
    /\ m_unique rep = size dedup
    /\ m_names rep = limited (sorted_keys dedup) limit
    /\ m_out_lines rep = header_lines abs_folder (size dedup) ++ concat (m_sections rep)
    /\ m_output rep = join_lines (m_out_lines rep)
    /\ m_status rep = 0
    /\ Forall2 (fun n sec => exists b, dedup !! n = Some b /\ sec = section_lines n b)
         (m_names rep) (m_sections rep).
Proof.
  intros all_blocks dedup. unfold main. fold all_blocks. fold dedup.
  destruct (sections_returns dedup _ [] (limited_keys dedup limit)) as (secs & Hs & Hf).
  rewrite Hs. cbn [app]. eexists. split; [reflexivity|]. cbn. auto 10.
Qed.

(** C9: [main] reads the files in sorted order, and the block it keeps for
    a name, and prints in the section of that name, is the first block of
    that name in the list of all blocks, taken file by file and, within a
    file, match by match from left to right; a later block of the same name
    never takes its place. *)
Theorem main_keeps_first_appearance (globbed : list str) (read_text : str -> str)
    (abs_folder : str) (limit : Z) :
  let css_files := sorted globbed in
  let all_blocks := gather read_text css_files in
  (Sorted str_le css_files /\ css_files ≡ₚ globbed)
  /\ all_blocks
     = concat (map (fun path =>
                      omap (block_of (read_text path) (basename path))
                           (finditer keyframes_re (read_text path)))
                 css_files)
  /\ (forall path, StronglySorted precedes (finditer keyframes_re (read_text path)))
  /\ (forall n, deduplicate all_blocks !! n = first_named n all_blocks)
  /\ exists rep,
       main globbed read_text abs_folder limit = Returned rep
       /\ Forall2 (fun n sec =>
                     exists l1 b l2,
                       all_blocks = l1 ++ b :: l2 /\ name b = n
                       /\ Forall (fun b' => name b' <> n) l1
                       /\ sec = section_lines n b)
            (m_names rep) (m_sections rep).
Proof.
  intros css_files all_blocks.
  split; [split; [apply sorted_Sorted|apply sorted_Permutation]|].
  split.
  { unfold all_blocks, gather. rewrite flat_map_concat_map. f_equal.
    apply map_ext. intros path. apply extract_keyframes_blocks_omap. }
  split; [intros path; apply finditer_ordered|].
  split; [intros n; apply deduplicate_lookup|].
  destruct (main_returns globbed read_text abs_folder limit)
    as (rep & Hm & _ & _ & _ & _ & _ & Hf).
  exists rep. split; [exact Hm|].
  eapply Forall2_impl; [exact Hf|].
  intros n sec (b & Hb & ->). fold css_files in Hb. fold all_blocks in Hb.
  rewrite deduplicate_lookup in Hb.
  apply first_named_Some in Hb as (l1 & l2 & Hl & Hn & Hl1).
  exists l1, b, l2. auto.
Qed.

(** C10: the lines of the report are the header followed by one section
    per name; the names are in sorted order without repeats; there are
    [min(max(0, limit), unique)] sections, hence at most [max(0, limit)] and
    none for a negative limit; and the count in the header is the number of
    distinct names among all blocks, whatever the limit. *)
Theorem main_report_sorted_limited (globbed : list str) (read_text : str -> str)
    (abs_folder : str) (limit : Z) :
  let all_blocks := gather read_text (sorted globbed) in
  exists rep,
    main globbed read_text abs_folder limit = Returned rep
    /\ m_out_lines rep = header_lines abs_folder (m_unique rep) ++ concat (m_sections rep)
    /\ Forall2 (fun n sec => exists b, sec = section_lines n b) (m_names rep) (m_sections rep)
    /\ Sorted str_le (m_names rep) /\ NoDup (m_names rep)
    /\ length (m_sections rep) = Nat.min (Z.to_nat (Z.max 0 limit)) (m_unique rep)
    /\ (length (m_sections rep) <= Z.to_nat (Z.max 0 limit))%nat
    /\ (limit < 0 -> m_sections rep = [])
    /\ m_unique rep = length (remove_dups (map name all_blocks))
    /\ m_out_lines rep !! 2%nat
       = Some (lit "- keyframes (unique): " ++ str_of_nat (m_unique rep)).
Proof.
  intros all_blocks.
  destruct (main_returns globbed read_text abs_folder limit)
    as (rep & Hm & Hu & Hn & Ho & _ & _ & Hf).
  fold all_blocks in Hu, Hn, Ho, Hf.
  assert (Hlen : length (m_sections rep)
                 = Nat.min (Z.to_nat (Z.max 0 limit)) (m_unique rep)).
  { rewrite <- (Forall2_length _ _ _ Hf), Hn, Hu. unfold limited.
    by rewrite length_take, sorted_keys_length. }
  exists rep. split; [exact Hm|].
  split; [by rewrite Ho, Hu|].
  split; [eapply Forall2_impl; [exact Hf|]; intros n sec (b & _ & ->); by exists b|].
  split; [rewrite Hn; apply Sorted_take, sorted_Sorted|].
  split; [rewrite Hn; unfold limited; eapply sublist_NoDup; [apply sorted_keys_NoDup|apply sublist_take]|].
  split; [exact Hlen|].
  split; [lia|].
  split.
  { intros Hneg. apply length_zero_iff_nil. rewrite Hlen.
    replace (Z.to_nat (Z.max 0 limit)) with 0%nat by lia. reflexivity. }
  split; [rewrite Hu; apply deduplicate_size|].
  rewrite Ho, Hu. reflexivity.
Qed.

Lemma main_report_sorted_limited_witness :
  exists rep,
    main [lit "d/b.css"; lit "d/a.css"] demo_read_text (lit "/abs/d") (-3) = Returned rep
    /\ m_sections rep = []
    /\ m_unique rep = 3%nat.
Proof.
  destruct (main_report_sorted_limited [lit "d/b.css"; lit "d/a.css"]
              demo_read_text (lit "/abs/d") (-3))
    as (rep & Hm & _ & _ & _ & _ & _ & _ & Hneg & Hu & _).
  exists rep. split; [exact Hm|]. split; [apply Hneg; lia|].
  rewrite Hu. vm_compute. reflexivity.
Defined.

Example main_demo :
  exists rep,
    main [lit "d/b.css"; lit "d/a.css"] demo_read_text (lit "/abs/d") 2 = Returned rep
    /\ m_unique rep = 3%nat
    /\ m_names rep = [lit "a}"; lit "x"]
    /\ m_sections rep
       = [ section_lines (lit "a}")
             {| name := lit "a}"; file := lit "a.css"; css := lit "@keyframes a} {}" |};
           section_lines (lit "x")
             {| name := lit "x"; file := lit "a.css"; css := lit "@keyframes x {b{}}" |} ].
Proof. eexists. split; [vm_compute; reflexivity|]. repeat split. Qed.

(** * Further properties of the extractor *)

(** ** Where the pattern matches *)

Lemma star_greedy {R : Type} (cls : char -> bool) (k : nat -> str -> option R) :
  forall (u : str) (pos : nat) (rest : str) (r : R),
  Forall (fun c => cls c = true) u -> stops cls rest ->
  k (pos + length u)%nat rest = Some r ->
  star cls k pos (u ++ rest) = Some r.
Proof.
  induction u as [|x u IH]; intros pos rest r Hu Hstop Hk.
  - cbn [app length] in *. rewrite Nat.add_0_r in Hk.
    destruct rest as [|c rest]; cbn [star]; [exact Hk|].
    cbn [stops] in Hstop. by rewrite Hstop.
  - inversion Hu as [|? ? Hx Hu']; subst. cbn [app star]. rewrite Hx.
    rewrite (IH (S pos) rest r Hu' Hstop); [reflexivity|].
    cbn [length] in Hk. by replace (S pos + length u)%nat with (pos + S (length u))%nat by lia.
Qed.

Lemma name_char_not_space (c : char) : name_char c = true -> is_space c = false.
Proof. unfold name_char. by destruct (is_space c). Qed.

Lemma space_not_name_char (c : char) : is_space c = true -> name_char c = false.
Proof. unfold name_char. by intros ->. Qed.

Lemma keyframes_re_complete (pos : nat) (ws nm ws' rest : str) (g : caps) :
  ws <> [] -> Forall (fun c => is_space c = true) ws ->
  nm <> [] -> Forall (fun c => name_char c = true) nm ->
  Forall (fun c => is_space c = true) ws' ->
  run keyframes_re pos (lit "@keyframes" ++ ws ++ nm ++ ws' ++ lbrace :: rest) g
  = Some (m_end (header_match pos ws nm ws'), m_group (header_match pos ws nm ws')).
Proof.
  intros Hws0 Hws Hnm0 Hnm Hws'.
  destruct ws as [|w ws]; [done|]. destruct nm as [|n nm]; [done|].
  inversion Hws as [|? ? Hw Hws1]; subst. inversion Hnm as [|? ? Hn Hnm1]; subst.
  change (lit "@keyframes") with [64; 107; 101; 121; 102; 114; 97; 109; 101; 115]%N.
  unfold keyframes_re.
  change (literal (lit "@keyframes"))
    with (map (fun c => Chars One (N.eqb c)) [64; 107; 101; 121; 102; 114; 97; 109; 101; 115]%N).
  cbn [map app run N.eqb Pos.eqb]. rewrite Hw.
  erewrite (star_greedy is_space _ ws); [reflexivity|exact Hws1| |].
  { cbn [app stops]. by apply name_char_not_space. }
  cbn [app run g_open g_close]. rewrite Hn.
  erewrite (star_greedy name_char _ nm); [reflexivity|exact Hnm1| |].
  { destruct ws' as [|x ws']; cbn [app stops]; [reflexivity|].
    inversion Hws'; subst. by apply space_not_name_char. }
  cbn [run g_open g_close].
  erewrite (star_greedy is_space _ ws'); [reflexivity|exact Hws'|reflexivity|].
  cbn [run N.eqb Pos.eqb lbrace]. unfold header_match. cbn [m_end m_group length].
  f_equal. f_equal; [lia|]. f_equal; lia.
Qed.

(** X1: the pattern matches at a position exactly when the text there reads
    a header, and then the match ends after the opening brace and group 1 is
    the name. *)
Theorem match_at_keyframes_iff (pos : nat) (s : str) (m : Match) :
  match_at keyframes_re pos s = Some m
  <-> exists ws nm ws' rest,
        reads_header s ws nm ws' rest /\ m = header_match pos ws nm ws'.
Proof.
  unfold match_at. split.
  - destruct (run keyframes_re pos s _) as [[e g]|] eqn:Hrun; [|discriminate].
    intros H. injection H as <-.
    apply keyframes_re_sound in Hrun
      as (ws & nm & ws' & rest & Hs & Hws0 & Hws & Hnm0 & Hnm & Hws' & -> & Hgo & Hgc).
    exists ws, nm, ws', rest. split; [by repeat split|].
    unfold header_match. destruct g as [go gc]. cbn in Hgo, Hgc. by subst.
  - intros (ws & nm & ws' & rest & (-> & Hws0 & Hws & Hnm0 & Hnm & Hws') & ->).
    by rewrite keyframes_re_complete.
Qed.

Lemma span_unique (P : char -> bool) (a : str) : forall (x : char) (r a' : str) (x' : char) (r' : str),
  a ++ x :: r = a' ++ x' :: r' ->
  Forall (fun c => P c = false) a -> P x = true ->
  Forall (fun c => P c = false) a' -> P x' = true ->
  a = a' /\ x = x' /\ r = r'.
Proof.
  induction a as [|c a IH]; intros x r a' x' r' He Ha Hx Ha' Hx'.
  - destruct a' as [|c' a']; cbn [app] in He.
    + by injection He as -> ->.
    + injection He as -> _. inversion Ha' as [|? ? Hc' _]; subst. congruence.
  - inversion Ha as [|? ? Hc Ha0]; subst. destruct a' as [|c' a']; cbn [app] in He.
    + injection He as -> _. congruence.
    + injection He as -> He. inversion Ha' as [|? ? _ Ha0']; subst.
      destruct (IH _ _ _ _ _ He Ha0 Hx Ha0' Hx') as (-> & -> & ->). auto.
Qed.

Lemma keyword_name_chars : Forall (fun c => name_char c = true) (lit "@keyframes").
Proof. repeat constructor. Qed.

Lemma Forall_name_char_neg (l : str) :
  Forall (fun c => name_char c = true) l -> Forall (fun c => negb (name_char c) = false) l.
Proof. intros H. eapply Forall_impl; [exact H|]. by intros c ->. Qed.

Lemma Forall_space_neg (l : str) :
  Forall (fun c => is_space c = true) l -> Forall (fun c => negb (is_space c) = false) l.
Proof. intros H. eapply Forall_impl; [exact H|]. by intros c ->. Qed.

(** No header starts strictly inside another one. *)
Lemma no_header_inside (s ws nm ws' rest : str) (d : nat) (ws2 nm2 ws2' rest2 : str) :
  reads_header s ws nm ws' rest ->
  (0 < d <= 10 + length ws + length nm + length ws')%nat ->
  reads_header (drop d s) ws2 nm2 ws2' rest2 -> False.
Proof.
  intros (-> & Hws0 & Hws & Hnm0 & Hnm & Hws') Hd (H2 & Hw20 & Hw2 & Hn20 & Hn2 & Hw2').
  assert (HK : length (lit "@keyframes") = 10%nat) by reflexivity.
  assert (Hat : forall (l t : str) (j : nat),
            Forall (fun c => is_space c = true) l -> (j < length l)%nat ->
            drop j l ++ t = lit "@keyframes" ++ ws2 ++ nm2 ++ ws2' ++ lbrace :: rest2 -> False).
  { intros l t j Hl Hj He. destruct (lookup_lt_is_Some_2 l j Hj) as [c Hc].
    rewrite (drop_S l c j Hc) in He. injection He as -> _.
    eapply Forall_lookup_1 in Hl; [|exact Hc]. discriminate. }
  destruct (decide (d < 10)%nat) as [H1|H1].
  { rewrite drop_app_le in H2 by lia.
    do 10 (destruct d as [|d]; [first [lia|discriminate]|]). lia. }
  rewrite drop_app_ge in H2 by lia. rewrite HK in H2.
  destruct (decide (d - 10 < length ws)%nat) as [H3|H3].
  { rewrite drop_app_le in H2 by lia. by eapply (Hat ws). }
  rewrite drop_app_ge in H2 by lia.
  destruct (decide (d - 10 - length ws < length nm)%nat) as [H4|H4].
  { rewrite drop_app_le in H2 by lia.
    set (j := (d - 10 - length ws)%nat) in *.
    assert (Hdn : Forall (fun c => name_char c = true) (drop j nm)) by by apply Forall_drop.
    destruct ws2 as [|w2 ws2]; [done|]. inversion Hw2 as [|? ? Hw2h Hw2t]; subst.
    destruct nm2 as [|n2 nm2]; [done|]. inversion Hn2 as [|? ? Hn2h _]; subst.
    destruct ws' as [|x ws'].
    - cbn [app] in H2.
      destruct (span_unique (fun c => negb (name_char c)) _ _ _ _ _ _ H2) as (_ & Hx & _);
        [by apply Forall_name_char_neg|reflexivity
        |apply Forall_name_char_neg, keyword_name_chars
        |by rewrite space_not_name_char|].
      subst w2. discriminate.
    - inversion Hws' as [|? ? Hx Hws't]; subst. cbn [app] in H2.
      destruct (span_unique (fun c => negb (name_char c)) _ _ _ _ _ _ H2) as (_ & _ & Ht);
        [by apply Forall_name_char_neg|by rewrite space_not_name_char
        |apply Forall_name_char_neg, keyword_name_chars
        |by rewrite space_not_name_char|].
      cbn [app] in Ht.
      destruct (span_unique (fun c => negb (is_space c)) _ _ _ _ _ _ Ht) as (_ & Hb & _);
        [by apply Forall_space_neg|reflexivity|by apply Forall_space_neg
        |by rewrite name_char_not_space|].
      subst n2. discriminate. }
  rewrite drop_app_ge in H2 by lia.
  destruct (decide (d - 10 - length ws - length nm < length ws')%nat) as [H5|H5].
  { rewrite drop_app_le in H2 by lia. by eapply (Hat ws'). }
  rewrite drop_app_ge in H2 by lia.
  replace (d - 10 - length ws - length nm - length ws')%nat with 0%nat in H2 by lia.
  discriminate.
Qed.

Lemma match_at_start (p : list node) (pos : nat) (s : str) (m : Match) :
  match_at p pos s = Some m -> m_start m = pos.
Proof.
  unfold match_at. destruct (run p pos s _) as [[? ?]|]; [|discriminate].
  by intros H; injection H as <-.
Qed.

Lemma finditer_from_complete (text : str) (m : Match) :
  forall (s : str) (skip pos q : nat),
  drop pos text = s -> (pos + skip <= q)%nat -> (q < length text)%nat ->
  match_at keyframes_re q (drop q text) = Some m ->
  m ∈ finditer_from keyframes_re skip pos s.
Proof.
  induction s as [|c s IH]; intros skip pos q Hs Hq Hlt Hm.
  { apply drop_nil_inv in Hs. lia. }
  assert (Hs' : drop (S pos) text = s).
  { replace (S pos) with (pos + 1)%nat by lia. by rewrite <- drop_drop, Hs. }
  cbn [finditer_from]. destruct skip as [|skip].
  2:{ apply (IH skip (S pos) q Hs'); [lia|exact Hlt|exact Hm]. }
  destruct (decide (q = pos)) as [->|Hne].
  { rewrite Hs in Hm. rewrite Hm. apply list_elem_of_here. }
  destruct (match_at keyframes_re pos (c :: s)) as [m0|] eqn:Hm0.
  2:{ apply (IH 0%nat (S pos) q Hs'); [lia|exact Hlt|exact Hm]. }
  apply list_elem_of_further.
  apply match_at_keyframes_iff in Hm0 as (ws & nm & ws' & rest & Hh & ->).
  apply (IH _ (S pos) q Hs'); [|exact Hlt|exact Hm].
  cbn [header_match m_end].
  destruct (decide (q < pos + 10 + length ws + length nm + length ws' + 1)%nat) as [Hin|]; [|lia].
  exfalso.
  apply match_at_keyframes_iff in Hm as (ws2 & nm2 & ws2' & rest2 & Hh2 & _).
  replace q with (pos + (q - pos))%nat in Hh2 by lia.
  rewrite <- drop_drop, Hs in Hh2.
  eapply (no_header_inside _ _ _ _ _ (q - pos)%nat); [exact Hh| |exact Hh2]. lia.
Qed.

(** X2: [finditer] yields exactly the matches of the pattern at the
    positions of the text, each once and from left to right: a header is
    never lost to an earlier match, since no header starts inside another
    one. *)
Theorem finditer_keyframes_iff (text : str) (m : Match) :
  (m ∈ finditer keyframes_re text
   <-> (m_start m < length text)%nat
       /\ match_at keyframes_re (m_start m) (drop (m_start m) text) = Some m)
  /\ StronglySorted precedes (finditer keyframes_re text).
Proof.
  split; [|apply finditer_ordered]. split.
  - intros Hm. apply finditer_sound in Hm. split; [|exact Hm].
    destruct (decide (m_start m < length text)%nat) as [|Hge]; [assumption|].
    rewrite drop_ge in Hm by lia.
    apply match_at_keyframes_iff in Hm as (? & ? & ? & ? & (Hs & _) & _). discriminate.
  - intros [Hlt Hm]. by eapply (finditer_from_complete text m text 0%nat 0%nat (m_start m)); [|lia| |].
Qed.

(** ** Which blocks are extracted *)

Lemma scan_complete (fuel : nat) (text : str) : forall (i : nat) (d : Z) (e : nat),
  (length text - i < fuel)%nat -> 1 <= d -> (i < e <= length text)%nat ->
  d + net (slice text i e) = 0 ->
  (forall j, (i <= j < e)%nat -> 1 <= d + net (slice text i j)) ->
  scan fuel text i d = Returned (Some e).
Proof.
  induction fuel as [|fuel IH]; intros i d e Hf Hd He Hnet Hpos; [lia|].
  cbn [scan]. destruct (Nat.ltb_spec i (length text)) as [Hi|Hi]; [|lia].
  destruct (text !! i) as [c|] eqn:Hc; [|apply lookup_ge_None in Hc; lia].
  rewrite (slice_cons _ _ _ _ Hc) in Hnet by lia. cbn [net] in Hnet.
  assert (Hnext : forall j, (S i <= j < e)%nat ->
            1 <= d + delta c + net (slice text (S i) j)).
  { intros j Hj. specialize (Hpos j ltac:(lia)).
    rewrite (slice_cons _ _ _ _ Hc) in Hpos by lia. cbn [net] in Hpos. lia. }
  assert (Hone : e = S i -> d + delta c = 0).
  { intros ->. rewrite slice_nil in Hnet. cbn [net] in Hnet. lia. }
  assert (Hgo : forall d', d' = d + delta c -> d' <> 0 ->
            scan fuel text (i + 1) d' = Returned (Some e)).
  { intros d' -> Hnz. replace (i + 1)%nat with (S i) by lia.
    assert (e <> S i) by (intros Heq; auto).
    apply IH; try lia.
    - specialize (Hnext (S i) ltac:(lia)). rewrite slice_nil in Hnext. cbn [net] in Hnext. lia.
    - exact Hnext. }
  unfold delta in *.
  destruct (N.eqb_spec c lbrace) as [Hcl|Hl]; [apply Hgo; lia|].
  destruct (N.eqb_spec c rbrace) as [Hcr|Hr]; [|apply Hgo; lia].
  cbv zeta. destruct (Z.eqb_spec (d - 1) 0) as [Hz|Hz]; [|apply Hgo; lia].
  destruct (decide (e = S i)) as [->|Hne]; [do 2 f_equal; lia|].
  specialize (Hnext (S i) ltac:(lia)). rewrite slice_nil in Hnext. cbn [net] in Hnext. lia.
Qed.

(** A header read at [q] whose body, from the brace to [e], is balanced
    gives the block of the text from [q] to [e]. *)
Lemma block_of_complete (text src : str) (q : nat) (ws nm ws' rest : str) (e : nat) :
  reads_header (drop q text) ws nm ws' rest ->
  (e <= length text)%nat ->
  slice text (q + 10 + length ws + length nm + length ws') e <> [] ->
  balanced (slice text (q + 10 + length ws + length nm + length ws') e) ->
  block_of text src (header_match q ws nm ws')
  = Some {| name := nm; file := src; css := slice text q e |}.
Proof.
  intros (Hdrop & Hws0 & Hws & Hnm0 & Hnm & Hws') He Hne [Hocc Hpre].
  set (i := (q + 10 + length ws + length nm + length ws')%nat) in *.
  assert (Hie : (i < e)%nat).
  { destruct (decide (i < e)%nat); [assumption|]. exfalso. apply Hne.
    unfold slice. replace (e - i)%nat with 0%nat by lia. reflexivity. }
  assert (Hi : text !! i = Some lbrace).
  { unfold i. replace (q + 10 + length ws + length nm + length ws')%nat
      with (q + length (lit "@keyframes" ++ ws ++ nm ++ ws'))%nat
      by (rewrite !length_app; change (length (lit "@keyframes")) with 10%nat; lia).
    assert (Hd2 : drop q text
                  = (lit "@keyframes" ++ ws ++ nm ++ ws') ++ lbrace :: rest)
      by (by rewrite Hdrop, <- !app_assoc).
    rewrite <- lookup_drop, Hd2. apply list_lookup_middle. reflexivity. }
  assert (Hlen : length (slice text i e) = (e - i)%nat) by (apply slice_length; lia).
  assert (Hnet : net (slice text i e) = 0) by (rewrite net_occ; lia).
  assert (Hprefix : forall j, (i < j < e)%nat -> 0 < net (slice text i j)).
  { intros j Hj. specialize (Hpre (j - i)%nat ltac:(lia)).
    rewrite take_slice in Hpre by lia. by replace (i + (j - i))%nat with j in Hpre by lia. }
  unfold block_of, block_for. cbn [header_match m_end m_group m_start g_open g_close].
  replace (q + 10 + length ws + length nm + length ws' + 1 - 1)%nat with i by (unfold i; lia).
  cbn [scan]. destruct (Nat.ltb_spec i (length text)) as [_|Hge]; [|lia].
  rewrite Hi. change (lbrace =? lbrace)%N with true. cbv iota.
  replace (i + 1)%nat with (S i) by lia. change (0 + 1) with 1.
  rewrite (slice_cons _ _ _ _ Hi) in Hnet by lia. cbn [net] in Hnet.
  change (delta lbrace) with 1 in Hnet.
  assert (Hsi : (S i < e)%nat).
  { destruct (decide (e = S i)) as [->|]; [|lia].
    rewrite slice_nil in Hnet. cbn [net] in Hnet. lia. }
  rewrite (scan_complete _ text (S i) 1 e); try lia.
  - do 3 f_equal.
    replace (q + 10 + length ws)%nat with (q + length (lit "@keyframes" ++ ws))%nat
      by (rewrite length_app; change (length (lit "@keyframes")) with 10%nat; lia).
    apply slice_middle with (v := ws' ++ lbrace :: rest).
    rewrite Hdrop. by rewrite <- !app_assoc.
  - intros j Hj. destruct (decide (j = S i)) as [->|Hn].
    + rewrite slice_nil. cbn [net]. lia.
    + specialize (Hprefix j ltac:(lia)).
      rewrite (slice_cons _ _ _ _ Hi) in Hprefix by lia. cbn [net] in Hprefix.
      change (delta lbrace) with 1 in Hprefix. lia.
Qed.

(** X3: a header somewhere in the text, followed by a body that is
    balanced from its opening brace to some index [e], is extracted: the
    result holds the block with that name and the text from the keyword to
    [e]. *)
Theorem extract_keyframes_blocks_complete (css_text source_file : str) (q : nat)
    (ws nm ws' rest : str) (e : nat) :
  reads_header (drop q css_text) ws nm ws' rest ->
  (e <= length css_text)%nat ->
  slice css_text (q + 10 + length ws + length nm + length ws') e <> [] ->
  balanced (slice css_text (q + 10 + length ws + length nm + length ws') e) ->
  {| name := nm; file := source_file; css := slice css_text q e |}
  ∈ extract_keyframes_blocks css_text source_file.
Proof.
  intros Hh He Hne Hbal.
  rewrite extract_keyframes_blocks_omap. apply list_elem_of_omap.
  exists (header_match q ws nm ws'). split; [|by apply (block_of_complete _ _ _ _ _ _ rest)].
  apply (finditer_from_complete css_text _ css_text 0%nat 0%nat q); [reflexivity|lia| |].
  - destruct (decide (q < length css_text)%nat); [assumption|].
    destruct Hh as (Hs & _). rewrite drop_ge in Hs by lia. discriminate.
  - apply match_at_keyframes_iff. by exists ws, nm, ws', rest.
Qed.

Lemma extract_keyframes_blocks_complete_witness :
  {| name := lit "a"; file := lit "f.css"; css := lit "@keyframes a {x{}}" |}
  ∈ extract_keyframes_blocks (lit "p{} @keyframes a {x{}} q") (lit "f.css").
Proof.
  apply (extract_keyframes_blocks_complete (lit "p{} @keyframes a {x{}} q") (lit "f.css")
           4 (lit " ") (lit "a") (lit " ") (lit "x{}} q") 22).
  - unfold reads_header. split; [reflexivity|].
    split; [discriminate|]. split; [repeat constructor|].
    split; [discriminate|]. split; repeat constructor.
  - vm_compute. lia.
  - vm_compute. discriminate.
  - split; [reflexivity|]. intros k Hk.
    change (length (slice (lit "p{} @keyframes a {x{}} q")
                      (4 + 10 + length (lit " ") + length (lit "a") + length (lit " ")) 22))
      with 5%nat in Hk.
    destruct k as [|[|[|[|[|k]]]]]; try lia; vm_compute; reflexivity.
Defined.

Lemma slice_tail (h body : str) :
  slice (h ++ body) (length h) (length (h ++ body)) = body.
Proof.
  unfold slice. rewrite drop_app_length, length_app.
  replace (length h + length body - length h)%nat with (length body) by lia.
  apply firstn_all.
Qed.

(** X4: extracting again from the [css] of an extracted block gives that
    block first, with the same name and the same [css]. *)
Theorem extract_keyframes_blocks_again (css_text source_file again : str) :
  Forall (fun b =>
            exists more,
              extract_keyframes_blocks (css b) again
              = {| name := name b; file := again; css := css b |} :: more)
         (extract_keyframes_blocks css_text source_file).
Proof.
  apply Forall_forall. intros b Hb.
  destruct (extract_origin _ _ _ Hb) as (fuel & m & Hm & Hbm).
  destruct (block_for_shape _ _ _ _ _ Hm Hbm)
    as (_ & _ & Hn0 & Hn & head & inner & Hcss & (ws & ws' & -> & Hws0 & Hws & Hws') & Hbal).
  set (body := lbrace :: inner ++ [rbrace]) in *.
  assert (Hh : reads_header (drop 0 (css b)) ws (name b) ws' (inner ++ [rbrace])).
  { cbn [drop]. rewrite Hcss, <- !app_assoc. by repeat split. }
  assert (Hlen : length (css b)
                 = (10 + length ws + length (name b) + length ws' + length body)%nat).
  { rewrite Hcss, !length_app. change (length (lit "@keyframes")) with 10%nat. lia. }
  assert (Hbody : slice (css b) (0 + 10 + length ws + length (name b) + length ws')
                    (length (css b)) = body).
  { replace (0 + 10 + length ws + length (name b) + length ws')%nat
      with (length (lit "@keyframes" ++ ws ++ name b ++ ws'))
      by (rewrite !length_app; change (length (lit "@keyframes")) with 10%nat; lia).
    rewrite Hcss. apply slice_tail. }
  pose proof (block_of_complete (css b) again 0 ws (name b) ws' _ (length (css b)) Hh) as Hblock.
  rewrite Hbody in Hblock. specialize (Hblock ltac:(lia) ltac:(discriminate) Hbal).
  replace (slice (css b) 0 (length (css b))) with (css b) in Hblock
    by (unfold slice; rewrite Nat.sub_0_r; cbn [drop]; by rewrite firstn_all).
  rewrite extract_keyframes_blocks_omap. unfold finditer.
  destruct (css b) as [|c s] eqn:Hs; [by destruct (lit "@keyframes")|].
  cbn [finditer_from].
  assert (Hm0 : match_at keyframes_re 0 (c :: s) = Some (header_match 0 ws (name b) ws')).
  { apply match_at_keyframes_iff. by exists ws, (name b), ws', (inner ++ [rbrace]). }
  rewrite Hm0.
  change (omap (block_of (c :: s) again) (header_match 0 ws (name b) ws' :: ?l))
    with (match block_of (c :: s) again (header_match 0 ws (name b) ws') with
          | Some y => y :: omap (block_of (c :: s) again) l
          | None => omap (block_of (c :: s) again) l
          end).
  rewrite Hblock. by eexists.
Qed.

(** X5: a text shorter than the shortest block, or without an opening
    brace, or without a closing brace, gives no block; in particular the
    empty text gives none. *)
Theorem extract_keyframes_blocks_none (css_text source_file : str) :
  (length css_text < 14)%nat \/ lbrace ∉ css_text \/ rbrace ∉ css_text ->
  extract_keyframes_blocks css_text source_file = [].
Proof.
  intros Hno.
  destruct (extract_keyframes_blocks css_text source_file) as [|b l] eqn:Hx; [reflexivity|].
  exfalso.
  assert (Hb : b ∈ extract_keyframes_blocks css_text source_file)
    by (rewrite Hx; apply list_elem_of_here).
  destruct (extract_origin _ _ _ Hb) as (fuel & m & Hm & Hbm).
  destruct (block_for_shape _ _ _ _ _ Hm Hbm)
    as (_ & (pre & post & Htext) & Hn0 & _ & head & inner & Hcss
        & (ws & ws' & -> & Hws0 & _ & _) & _).
  rewrite Hcss in Htext.
  destruct Hno as [Hshort|[Hl|Hr]].
  - rewrite Htext, !length_app in Hshort. cbn [length] in Hshort.
    rewrite !length_app in Hshort. cbn [length] in Hshort.
    change (length (lit "@keyframes")) with 10%nat in Hshort.
    destruct ws; [done|]. destruct (name b); [done|]. cbn [length] in Hshort. lia.
  - apply Hl. rewrite Htext. rewrite !elem_of_app. right. left. right.
    apply list_elem_of_here.
  - apply Hr. rewrite Htext. rewrite !elem_of_app. right. left. right.
    apply list_elem_of_further. rewrite elem_of_app. right. apply list_elem_of_here.
Qed.

Lemma extract_keyframes_blocks_none_witness :
  extract_keyframes_blocks [] (lit "f.css") = []
  /\ extract_keyframes_blocks (lit "@keyframes spin { from {") (lit "f.css") = [].
Proof.
  split.
  - apply extract_keyframes_blocks_none. left. cbn. lia.
  - apply extract_keyframes_blocks_none. right. right.
    intros H. vm_compute in H. repeat (apply elem_of_cons in H as [H|H]; [discriminate|]).
    by apply elem_of_nil in H.
Defined.

(** ** More on [main] *)

(** X6: the report does not depend on the order in which [glob] lists the
    files. *)
Theorem main_glob_order (globbed globbed' : list str) (read_text : str -> str)
    (abs_folder : str) (limit : Z) :
  globbed ≡ₚ globbed' ->
  main globbed read_text abs_folder limit = main globbed' read_text abs_folder limit.
Proof.
  intros Hp. unfold main.
  replace (sorted globbed') with (sorted globbed); [reflexivity|].
  apply sorted_is_the_sort; [apply sorted_Sorted|].
  by rewrite sorted_Permutation.
Qed.

Lemma main_glob_order_witness :
  main [lit "d/b.css"; lit "d/a.css"] demo_read_text (lit "/abs/d") 2
  = main [lit "d/a.css"; lit "d/b.css"] demo_read_text (lit "/abs/d") 2.
Proof.
  apply (main_glob_order [lit "d/b.css"; lit "d/a.css"] [lit "d/a.css"; lit "d/b.css"]).
  apply perm_swap.
Defined.

Lemma gather_elem_of (read_text : str -> str) (files : list str) (b : KeyframesBlock) :
  b ∈ gather read_text files <->
  exists path, path ∈ files
               /\ b ∈ extract_keyframes_blocks (read_text path) (basename path).
Proof.
  unfold gather. rewrite list_elem_of_In, in_flat_map. split.
  - intros (path & Hp & Hb). exists path. by rewrite !list_elem_of_In.
  - intros (path & Hp & Hb). exists path. by rewrite <- !list_elem_of_In.
Qed.

(** X7: every section of the report shows a block that was extracted from
    one of the listed files: its source label is the base name of that
    file's path and its [css] is a piece of that file's text. *)
Theorem main_sections_provenance (globbed : list str) (read_text : str -> str)
    (abs_folder : str) (limit : Z) :
  exists rep,
    main globbed read_text abs_folder limit = Returned rep
    /\ Forall2 (fun n sec =>
                  exists path b,
                    path ∈ globbed
                    /\ b ∈ extract_keyframes_blocks (read_text path) (basename path)
                    /\ name b = n /\ file b = basename path
                    /\ (exists pre post, read_text path = pre ++ css b ++ post)
                    /\ sec = section_lines n b)
         (m_names rep) (m_sections rep).
Proof.
  destruct (main_returns globbed read_text abs_folder limit)
    as (rep & Hm & _ & _ & _ & _ & _ & Hf).
  exists rep. split; [exact Hm|].
  eapply Forall2_impl; [exact Hf|].
  intros n sec (b & Hb & ->). rewrite deduplicate_lookup in Hb.
  apply first_named_Some in Hb as (l1 & l2 & Hl & Hn & _).
  assert (Hin : b ∈ gather read_text (sorted globbed)).
  { rewrite Hl. apply elem_of_app. right. apply list_elem_of_here. }
  apply gather_elem_of in Hin as (path & Hp & Hbx).
  rewrite sorted_Permutation in Hp.
  destruct (extract_origin _ _ _ Hbx) as (fuel & m & Hmm & Hbm).
  destruct (block_for_shape _ _ _ _ _ Hmm Hbm) as (Hfile & Hsub & _).
  exists path, b. auto 10.
Qed.

Lemma sections_of_names (d : gmap (list N) KeyframesBlock) (names : list str)
    (secs : list (list str)) :
  Forall2 (fun n sec => exists b, d !! n = Some b /\ sec = section_lines n b) names secs ->
  secs = map (section_of d) names.
Proof.
  induction 1 as [|n sec names secs (b & Hb & ->) _ IH]; [reflexivity|].
  cbn [map]. unfold section_of at 1. by rewrite Hb, IH.
Qed.

(** X8: raising the limit only adds to the report: the names and the
    sections printed for a limit are the first ones of those printed for
    any larger limit, and the count of unique names is the same. *)
Theorem main_limit_prefix (globbed : list str) (read_text : str -> str)
    (abs_folder : str) (limit limit' : Z) :
  limit <= limit' ->
  exists rep rep',
    main globbed read_text abs_folder limit = Returned rep
    /\ main globbed read_text abs_folder limit' = Returned rep'
    /\ m_names rep `prefix_of` m_names rep'
    /\ m_sections rep `prefix_of` m_sections rep'
    /\ m_unique rep = m_unique rep'.
Proof.
  intros Hle.
  destruct (main_returns globbed read_text abs_folder limit)
    as (rep & Hm & Hu & Hn & _ & _ & _ & Hf).
  destruct (main_returns globbed read_text abs_folder limit')
    as (rep' & Hm' & Hu' & Hn' & _ & _ & _ & Hf').
  exists rep, rep'. split; [exact Hm|]. split; [exact Hm'|].
  assert (Hpre : m_names rep `prefix_of` m_names rep').
  { rewrite Hn, Hn'. unfold limited.
    set (l := sorted_keys _).
    exists (drop (Z.to_nat (Z.max 0 limit)) (take (Z.to_nat (Z.max 0 limit')) l)).
    rewrite <- (take_drop (Z.to_nat (Z.max 0 limit)) (take (Z.to_nat (Z.max 0 limit')) l)) at 1.
    f_equal. rewrite take_take. f_equal. lia. }
  split; [exact Hpre|]. split; [|congruence].
  rewrite (sections_of_names _ _ _ Hf), (sections_of_names _ _ _ Hf').
  destruct Hpre as [k ->].
  exists (map (section_of (deduplicate (gather read_text (sorted globbed)))) k).
  apply map_app.
Qed.

Lemma main_limit_prefix_witness :
  exists rep rep',
    main [lit "d/b.css"; lit "d/a.css"] demo_read_text (lit "/abs/d") 1 = Returned rep
    /\ main [lit "d/b.css"; lit "d/a.css"] demo_read_text (lit "/abs/d") 200 = Returned rep'
    /\ m_names rep = [lit "a}"]
    /\ m_names rep' = [lit "a}"; lit "x"; lit "y"]
    /\ m_sections rep `prefix_of` m_sections rep'.
Proof.
  destruct (main_limit_prefix [lit "d/b.css"; lit "d/a.css"] demo_read_text
              (lit "/abs/d") 1 200)
    as (rep & rep' & Hm & Hm' & _ & Hs & _); [lia|].
  exists rep, rep'. split; [exact Hm|]. split; [exact Hm'|].
  split; [|split; [|exact Hs]].
  - vm_compute in Hm. injection Hm as <-. reflexivity.
  - vm_compute in Hm'. injection Hm' as <-. reflexivity.
Defined.

(** X9: with a limit of at least the number of unique names, every name
    found in the files has its section: the names of the report are the
    names of the blocks. *)
Theorem main_shows_all (globbed : list str) (read_text : str -> str)
    (abs_folder : str) (limit : Z) :
  Z.of_nat (length (remove_dups (map name (gather read_text (sorted globbed))))) <= limit ->
  exists rep,
    main globbed read_text abs_folder limit = Returned rep
    /\ length (m_sections rep) = m_unique rep
    /\ forall n, n ∈ m_names rep <-> n ∈ map name (gather read_text (sorted globbed)).
Proof.
  intros Hle.
  destruct (main_returns globbed read_text abs_folder limit)
    as (rep & Hm & Hu & Hn & _ & _ & _ & Hf).
  rewrite <- deduplicate_size in Hle.
  assert (Hall : m_names rep = sorted_keys (deduplicate (gather read_text (sorted globbed)))).
  { rewrite Hn. unfold limited. apply take_ge. rewrite sorted_keys_length. lia. }
  exists rep. split; [exact Hm|]. split.
  - by rewrite <- (Forall2_length _ _ _ Hf), Hall, sorted_keys_length.
  - intros n. rewrite Hall, sorted_keys_elem_of, deduplicate_lookup.
    rewrite <- not_eq_None_Some, first_named_None.
    split; [apply dec_stable|auto].
Qed.

Lemma main_shows_all_witness :
  exists rep,
    main [lit "d/b.css"; lit "d/a.css"] demo_read_text (lit "/abs/d") 3 = Returned rep
    /\ length (m_sections rep) = 3%nat
    /\ lit "y" ∈ m_names rep.
Proof.
  destruct (main_shows_all [lit "d/b.css"; lit "d/a.css"] demo_read_text (lit "/abs/d") 3)
    as (rep & Hm & Hl & Hn); [vm_compute; discriminate|].
  exists rep. split; [exact Hm|]. split.
  - rewrite Hl. vm_compute in Hm. injection Hm as <-. reflexivity.
  - apply Hn. vm_compute. do 3 apply list_elem_of_further. apply list_elem_of_here.
Defined.




Lemma basename_from_spec (p : str) : forall tail,
  slash ∉ tail ->
  exists dir,
    tail ++ p = dir ++ basename_from p tail
    /\ (slash ∉ basename_from p tail)
    /\ (dir = [] \/ last dir = Some slash).
Proof.
  induction p as [|c p IH]; intros tail Ht; cbn [basename_from].
  - exists []. rewrite app_nil_r. auto.
  - destruct (N.eqb_spec c slash) as [->|Hc].
    + destruct (IH [] (not_elem_of_nil _)) as (dir & Hp & Hno & Hdir).
      exists (tail ++ slash :: dir). cbn [app] in Hp.
      split; [rewrite <- app_assoc; cbn [app]; by rewrite <- Hp|]. split; [exact Hno|].
      right. rewrite last_app. destruct Hdir as [->|Hl].
      * reflexivity.
      * rewrite last_cons, Hl. reflexivity.
    + destruct (IH (tail ++ [c])) as (dir & Hp & Hno & Hdir).
      { rewrite elem_of_app, list_elem_of_singleton. intros [?|?]; [auto|congruence]. }
      exists dir. rewrite <- app_assoc in Hp. auto.
Qed.

(** X11: the source label of every gathered block is the part of its
    file's path after the last slash: the path is a directory part, empty
    or ending in a slash, followed by the label, and the label holds no
    slash. *)
Theorem gather_file_labels (read_text : str -> str) (css_files : list str) :
  Forall (fun b =>
            exists path dir,
              path ∈ css_files /\ path = dir ++ file b
              /\ (slash ∉ file b)
              /\ (dir = [] \/ last dir = Some slash))
         (gather read_text css_files).
Proof.
  apply Forall_forall. intros b Hb.
  apply gather_elem_of in Hb as (path & Hp & Hbx).
  destruct (extract_origin _ _ _ Hbx) as (fuel & m & Hm & Hbm).
  destruct (block_for_shape _ _ _ _ _ Hm Hbm) as (Hfile & _).
  destruct (basename_from_spec path [] (not_elem_of_nil _)) as (dir & Hd & Hno & Hdir).
  exists path, dir. rewrite Hfile. auto.
Qed.




(** * Proofs, part II: the compressor *)

Module CompressorFacts.
Import Compressor.

Section Facts.

Variable Bitmap : Type.
Variable composite_on_white : Bitmap -> Bitmap.
Variable resample : Bitmap -> Z -> Z -> Bitmap.
Variable encoded_size : Image Bitmap -> Z -> Z.
Variable req : CompressionRequest.
Variable isize : Z.

Local Abbreviation search := (search Bitmap resample encoded_size).
Local Abbreviation resize := (resize Bitmap resample).
Local Abbreviation preprocess := (preprocess Bitmap composite_on_white resample).
Local Abbreviation fallback := (fallback Bitmap encoded_size).
Local Abbreviation compress_fuel := (compress_fuel Bitmap composite_on_white resample encoded_size).
Local Abbreviation compress := (compress Bitmap composite_on_white resample encoded_size).
Local Abbreviation met := (met Bitmap encoded_size isize).
Local Abbreviation runs := (runs Bitmap resample encoded_size req isize).

Lemma scale_down_bounds (x : Z) : 5 * scale_down x <= 4 * x < 5 * scale_down x + 5.
Proof. unfold scale_down. Z.div_mod_to_equations. lia. Qed.

Lemma search_runs (fuel : nat) : forall q img res evs,
  search fuel req isize q img = Some (res, evs) -> runs q img res evs.
Proof.
  induction fuel as [|fuel IH]; intros q img res evs H; [discriminate|].
  cbn [Compressor.search] in H.
  destruct (Z.leb_spec min_quality q) as [Hq|Hq].
  2:{ injection H as <- <-. by constructor. }
  cbv zeta in H.
  destruct (Z.leb_spec (encoded_size img q) (max_size req)) as [Hs|Hs].
  { injection H as <- <-. by apply runs_met. }
  destruct (Z.ltb_spec quality_floor q) as [Hf|Hf].
  { destruct (search fuel req isize (q - 10) img) as [[r e]|] eqn:Hr; [|discriminate].
    injection H as <- <-. apply runs_lower; auto. }
  destruct (Z.ltb_spec (scale_down (width img)) width_floor) as [Hw|Hw].
  { injection H as <- <-. by apply runs_refuse. }
  destruct (search fuel req isize q _) as [[r e]|] eqn:Hr; [|discriminate].
  injection H as <- <-. apply runs_shrink; auto.
Qed.

Lemma search_terminates (fuel : nat) : forall q img,
  (Z.to_nat (q - quality_floor) + Z.to_nat (width img) < fuel)%nat ->
  exists res evs, search fuel req isize q img = Some (res, evs).
Proof.
  induction fuel as [|fuel IH]; intros q img Hf; [lia|].
  cbn [Compressor.search].
  destruct (Z.leb_spec min_quality q) as [Hq|Hq]; [|by eexists _, _].
  cbv zeta.
  destruct (Z.leb_spec (encoded_size img q) (max_size req)) as [Hs|Hs]; [by eexists _, _|].
  destruct (Z.ltb_spec quality_floor q) as [Hfl|Hfl].
  { destruct (IH (q - 10) img) as (r & e & ->); [|by eexists _, _].
    unfold quality_floor in *. lia. }
  destruct (Z.ltb_spec (scale_down (width img)) width_floor) as [Hw|Hw]; [by eexists _, _|].
  destruct (IH q (resize img (scale_down (width img)) (scale_down (height img))))
    as (r & e & ->); [|by eexists _, _].
  cbn [width Compressor.resize]. pose proof (scale_down_bounds (width img)).
  unfold width_floor, quality_floor in *. lia.
Qed.

Lemma search_fuel_mono (fuel : nat) : forall fuel' q img r,
  search fuel req isize q img = Some r -> (fuel <= fuel')%nat ->
  search fuel' req isize q img = Some r.
Proof.
  induction fuel as [|fuel IH]; intros fuel' q img r H Hle; [discriminate|].
  destruct fuel' as [|fuel']; [lia|].
  cbn [Compressor.search] in *.
  destruct (min_quality <=? q); [|exact H]. cbv zeta in *.
  destruct (encoded_size img q <=? max_size req); [exact H|].
  destruct (quality_floor <? q).
  { destruct (search fuel req isize (q - 10) img) as [[r0 e0]|] eqn:Hr; [|discriminate].
    by rewrite (IH fuel' _ _ _ Hr) by lia. }
  destruct (scale_down (width img) <? width_floor); [exact H|].
  destruct (search fuel req isize q _) as [[r0 e0]|] eqn:Hr; [|discriminate].
  by rewrite (IH fuel' _ _ _ Hr) by lia.
Qed.

(** Every quality tried lies between the minimum and the starting one. *)
Lemma runs_qualities q img res evs :
  runs q img res evs -> Forall (fun x => min_quality <= x <= q) (qualities evs).
Proof.
  induction 1 as [| |q img res evs Hq Hs Hf _ IH| |q img res evs Hq Hs Hf Hw _ IH];
    cbn [qualities flat_map app]; repeat constructor; try lia.
  - eapply Forall_impl; [exact IH|]. intros x Hx. simpl in Hx. lia.
  - exact IH.
Qed.

(** Ten-point decrements stop at 50: from [q] there are at most
    [(q - 41) / 10] of them. *)
Lemma runs_decrements q img res evs :
  runs q img res evs ->
  Z.of_nat (decrements evs) <= Z.max 0 ((q - 41) / 10).
Proof.
  unfold decrements.
  induction 1 as [| |q img res evs Hq Hs Hf _ IH| |q img res evs Hq Hs Hf Hw _ IH];
    cbn [List.filter length]; unfold quality_floor in *;
    Z.div_mod_to_equations; lia.
Qed.

(** After [k] shrinks the width is at most [0.8^k] of the starting width;
    it is unchanged when [k = 0] and at least 400 otherwise. *)
Lemma runs_shrinks q img res evs :
  runs q img res evs ->
  final_width res * 5 ^ Z.of_nat (shrinks evs) <= 4 ^ Z.of_nat (shrinks evs) * width img
  /\ (shrinks evs = 0%nat -> final_width res = width img)
  /\ (shrinks evs <> 0%nat -> width_floor <= final_width res).
Proof.
  induction 1 as [q img _|q img _ _|q img res evs Hq Hs Hf _ IH
                 |q img _ _ _ _|q img res evs Hq Hs Hf Hw Hr IH].
  - cbn. repeat split; lia.
  - cbn. repeat split; lia.
  - exact IH.
  - cbn. repeat split; lia.
  - change (shrinks (Encoded q img (encoded_size img q)
                     :: Shrunk (resize img (scale_down (width img))
                                  (scale_down (height img))) :: evs))
      with (S (shrinks evs)).
    destruct IH as (Hle & H0 & Hpos). cbn [width Compressor.resize] in *.
    set (k := shrinks evs) in *. split; [|split; [lia|]].
    + rewrite Nat2Z.inj_succ, !Z.pow_succ_r by lia.
      assert (0 < 4 ^ Z.of_nat k) by (apply Z.pow_pos_nonneg; lia).
      assert (0 < 5 ^ Z.of_nat k) by (apply Z.pow_pos_nonneg; lia).
      pose proof (scale_down_bounds (width img)). nia.
    + intros _. destruct (decide (k = 0%nat)) as [Hk|Hk]; [|auto].
      rewrite (H0 Hk). exact Hw.
Qed.

(** A run that leaves the loop without a result met the budget at no
    attempt. *)
Lemma runs_exhausted q img cur evs :
  runs q img (inr cur) evs ->
  Forall (fun e => match e with
                   | Encoded _ _ size => max_size req < size
                   | _ => True
                   end) evs.
Proof.
  remember (inr cur) as res eqn:Hres.
  induction 1 as [| |q img res evs Hq Hs Hf _ IH| |q img res evs Hq Hs Hf Hw Hr IH];
    try discriminate; repeat constructor; auto.
Qed.


Lemma runs_result q img r evs :
  runs q img (inl r) evs ->
  success r = true /\ min_quality <= quality r <= q /\ output_size r <= max_size req.
Proof.
  remember (inl r) as res eqn:Hres.
  induction 1 as [q img _|q img Hq Hs|q img res evs Hq Hs Hf _ IH
                 |q img _ _ _ _|q img res evs Hq Hs Hf Hw Hr IH]; try discriminate.
  - injection Hres as Hr. subst r. cbn. repeat split; auto; lia.
  - destruct (IH Hres) as (? & ? & ?). repeat split; auto; lia.
  - destruct (IH Hres) as (? & ? & ?). repeat split; auto; lia.
Qed.

(** How the loop is left without a result: the quality was below the
    minimum from the start, or a shrink was refused. *)
Lemma runs_exhausted_how q img cur evs :
  runs q img (inr cur) evs ->
  (q < min_quality /\ evs = []) \/ last evs = Some Refused.
Proof.
  remember (inr cur) as res eqn:Hres.
  induction 1 as [q img Hq|q img _ _|q img res evs Hq Hs Hf _ IH
                 |q img _ _ _ _|q img res evs Hq Hs Hf Hw Hr IH]; try discriminate.
  - by left.
  - right. destruct (IH Hres) as [[Hlow _]|Hl].
    + unfold min_quality, quality_floor in *. lia.
    + by rewrite !last_cons, Hl.
  - by right.
  - right. destruct (IH Hres) as [[Hlow _]|Hl]; [lia|].
    by rewrite !last_cons, Hl.
Qed.

Lemma qualities_app (a b : list (event Bitmap)) :
  qualities (a ++ b) = qualities a ++ qualities b.
Proof. unfold qualities. by rewrite flat_map_app. Qed.

Lemma decrements_app (a b : list (event Bitmap)) :
  decrements (a ++ b) = (decrements a + decrements b)%nat.
Proof. unfold decrements. by rewrite List.filter_app, length_app. Qed.

Lemma shrinks_app (a b : list (event Bitmap)) :
  shrinks (a ++ b) = (shrinks a + shrinks b)%nat.
Proof. unfold shrinks. by rewrite List.filter_app, length_app. Qed.

Lemma flatten_dims (img : Image Bitmap) :
  width (flatten Bitmap composite_on_white img) = width img
  /\ height (flatten Bitmap composite_on_white img) = height img.
Proof. unfold flatten. by destruct (mode img). Qed.

Lemma preprocess_width (img : Image Bitmap) :
  width (preprocess img req) = Z.min (width img) (max_width req).
Proof.
  unfold Compressor.preprocess, fit_width.
  destruct (flatten_dims img) as [Hw _]. rewrite Hw.
  destruct (Z.ltb_spec (max_width req) (width img)); cbn [width Compressor.resize]; lia.
Qed.

Lemma preprocess_narrow (img : Image Bitmap) :
  width img <= max_width req ->
  width (preprocess img req) = width img /\ height (preprocess img req) = height img.
Proof.
  intros Hn. unfold Compressor.preprocess, fit_width.
  destruct (flatten_dims img) as [Hw Hh]. rewrite Hw.
  destruct (Z.ltb_spec (max_width req) (width img)); [lia|]. auto.
Qed.

(** What [compress_fuel] returns, from what the loop leaves. *)
Lemma compress_fuel_cases (fuel : nat) (image : Image Bitmap) r evs :
  compress_fuel fuel image req isize = Some (r, evs) ->
  (exists evs0, runs (initial_quality req) (preprocess image req) (inl r) evs0
                /\ evs = evs0)
  \/ (exists cur evs0,
        runs (initial_quality req) (preprocess image req) (inr cur) evs0
        /\ r = fallback isize cur
        /\ evs = evs0 ++ [Encoded min_quality cur (encoded_size cur min_quality)]).
Proof.
  unfold Compressor.compress_fuel.
  destruct (search fuel req isize _ _) as [[[r0|cur] evs0]|] eqn:Hs; [| |discriminate];
    intros H; injection H as <- <-; apply search_runs in Hs.
  - left. by exists evs0.
  - right. by exists cur, evs0.
Qed.

(** C2, as amended: an image no wider than [max_width] whose encoding at
    the initial quality fits the budget comes back as it is, at that
    quality and marked successful, provided the initial quality is at least
    the minimum quality 20 from which the loop runs. *)
Theorem compress_within_budget (image : Image Bitmap) :
  width image <= max_width req ->
  min_quality <= initial_quality req ->
  encoded_size (preprocess image req) (initial_quality req) <= max_size req ->
  exists r evs,
    compress image req isize = Some (r, evs)
    /\ success r = true
    /\ quality r = initial_quality req
    /\ out_width r = width image
    /\ out_height r = height image
    /\ output_size r = encoded_size (preprocess image req) (initial_quality req).
Proof.
  intros Hn Hq Hs. destruct (preprocess_narrow image Hn) as [Hw Hh].
  unfold Compressor.compress, Compressor.compress_fuel, enough_fuel.
  cbn [Compressor.search].
  destruct (Z.leb_spec min_quality (initial_quality req)); [|lia]. cbv zeta.
  destruct (Z.leb_spec (encoded_size (preprocess image req) (initial_quality req))
              (max_size req)); [|lia].
  eexists _, _. split; [reflexivity|]. cbn. auto.
Qed.

(** C4: when the loop is left without a result, [compress] encodes
    [current_image] at quality 20 and reports success with that size,
    whether or not it fits the budget; no attempt of the loop had met the
    budget, and the loop was left at the quality floor or at the width
    floor. *)
Theorem fallback_reports_success (fuel : nat) (image cur : Image Bitmap) evs :
  search fuel req isize (initial_quality req) (preprocess image req) = Some (inr cur, evs) ->
  exists r,
    compress_fuel fuel image req isize
    = Some (r, evs ++ [Encoded min_quality cur (encoded_size cur min_quality)])
    /\ success r = true
    /\ quality r = 20
    /\ output_size r = encoded_size cur 20
    /\ out_width r = width cur /\ out_height r = height cur
    /\ Forall (fun e => match e with
                        | Encoded _ _ size => max_size req < size
                        | _ => True
                        end) evs
    /\ ((initial_quality req < 20 /\ evs = []) \/ last evs = Some Refused).
Proof.
  intros Hs. exists (fallback isize cur).
  unfold Compressor.compress_fuel. rewrite Hs.
  apply search_runs in Hs.
  split; [reflexivity|]. cbn.
  repeat (split; [reflexivity|]).
  split; [eapply runs_exhausted; exact Hs|].
  eapply runs_exhausted_how; exact Hs.
Qed.

(** C5, as amended: for a valid request every quality at which an image is
    encoded lies in [20, 100], and so does the quality of the result; the
    result is at least as wide as the smallest of 400, the width of the
    input and [max_width], so it is narrower than 400 only if the input or
    [max_width] is. *)
Theorem search_stays_in_range (fuel : nat) (image : Image Bitmap) r evs :
  valid_request req ->
  compress_fuel fuel image req isize = Some (r, evs) ->
  Forall (fun q => 20 <= q <= 100) (qualities evs)
  /\ 20 <= quality r <= 100
  /\ Z.min 400 (Z.min (width image) (max_width req)) <= out_width r.
Proof.
  intros (_ & Hq & _) H.
  pose proof (preprocess_width image) as Hpw.
  assert (Hfw : forall res evs0,
            runs (initial_quality req) (preprocess image req) res evs0 ->
            Z.min 400 (Z.min (width image) (max_width req)) <= final_width res).
  { intros res evs0 Hr. destruct (runs_shrinks _ _ _ _ Hr) as (_ & H0 & Hpos).
    destruct (decide (shrinks evs0 = 0%nat)) as [Hk|Hk].
    - rewrite (H0 Hk), Hpw. lia.
    - specialize (Hpos Hk). unfold width_floor in Hpos. lia. }
  destruct (compress_fuel_cases _ _ _ _ H) as [(evs0 & Hr & ->)|(cur & evs0 & Hr & -> & ->)].
  - destruct (runs_result _ _ _ _ Hr) as (_ & Hqr & _).
    split; [|split].
    + eapply Forall_impl; [exact (runs_qualities _ _ _ _ Hr)|].
      intros x Hx. unfold min_quality in *. simpl in Hx. lia.
    + unfold min_quality in *. lia.
    + exact (Hfw _ _ Hr).
  - split; [|split].
    + rewrite qualities_app. apply Forall_app. split.
      * eapply Forall_impl; [exact (runs_qualities _ _ _ _ Hr)|].
        intros x Hx. unfold min_quality in *. simpl in Hx. lia.
      * cbn. repeat constructor; unfold min_quality; lia.
    + cbn. unfold min_quality. lia.
    + exact (Hfw _ _ Hr).
Qed.

(** C6: for a valid request [compress] returns, and so does every run with
    at least the computed number of iterations; the run lowers the quality
    at most 5 times, and after its [k] shrinks the width is at most
    [0.8^k] of the width the search started from and, when [k > 0], still
    at least 400, so that [400 * 5^k <= 4^k * width]. *)
Theorem compress_terminates (image : Image Bitmap) :
  valid_request req ->
  exists r evs,
    compress image req isize = Some (r, evs)
    /\ (forall fuel,
          (enough_fuel Bitmap (initial_quality req) (preprocess image req) <= fuel)%nat ->
          compress_fuel fuel image req isize = Some (r, evs))
    /\ (decrements evs <= 5)%nat
    /\ out_width r * 5 ^ Z.of_nat (shrinks evs)
       <= 4 ^ Z.of_nat (shrinks evs) * width (preprocess image req)
    /\ (shrinks evs <> 0%nat ->
        400 * 5 ^ Z.of_nat (shrinks evs)
        <= 4 ^ Z.of_nat (shrinks evs) * width (preprocess image req)).
Proof.
  intros (_ & Hq & _).
  set (q := initial_quality req) in *. set (img := preprocess image req).
  destruct (search_terminates (enough_fuel Bitmap q img) q img) as (res & evs0 & Hs).
  { unfold enough_fuel. lia. }
  pose proof (search_runs _ _ _ _ _ Hs) as Hr.
  pose proof (runs_decrements _ _ _ _ Hr) as Hd.
  destruct (runs_shrinks _ _ _ _ Hr) as (Hle & _ & Hpos).
  assert (Hd5 : (decrements evs0 <= 5)%nat).
  { revert Hd. Z.div_mod_to_equations. lia. }
  assert (Hk : shrinks evs0 <> 0%nat ->
               400 * 5 ^ Z.of_nat (shrinks evs0) <= 4 ^ Z.of_nat (shrinks evs0) * width img).
  { intros Hne. specialize (Hpos Hne). unfold width_floor in Hpos.
    assert (0 < 5 ^ Z.of_nat (shrinks evs0)) by (apply Z.pow_pos_nonneg; lia). nia. }
  assert (Hall : forall fuel, (enough_fuel Bitmap q img <= fuel)%nat ->
            search fuel req isize q img = Some (res, evs0)).
  { intros fuel Hf. by apply (search_fuel_mono _ _ _ _ _ Hs). }
  destruct res as [r|cur].
  - exists r, evs0. split; [|split].
    + unfold Compressor.compress, Compressor.compress_fuel. fold q. fold img. by rewrite Hs.
    + intros fuel Hf. unfold Compressor.compress_fuel. fold q. fold img.
      by rewrite (Hall fuel Hf).
    + auto.
  - exists (fallback isize cur),
      (evs0 ++ [Encoded min_quality cur (encoded_size cur min_quality)]).
    rewrite decrements_app, shrinks_app. cbn [decrements shrinks List.filter length].
    rewrite !Nat.add_0_r. split; [|split].
    + unfold Compressor.compress, Compressor.compress_fuel. fold q. fold img. by rewrite Hs.
    + intros fuel Hf. unfold Compressor.compress_fuel. fold q. fold img.
      by rewrite (Hall fuel Hf).
    + auto.
Qed.

End Facts.
(** ** Runs of the compressor on a toy image library *)

Lemma compress_within_budget_witness :
  exists r evs,
    toy_compress thumbnail defaults 250000 = Some (r, evs)
    /\ success r = true /\ quality r = 85 /\ out_width r = 800 /\ out_height r = 600.
Proof.
  destruct (compress_within_budget unit (fun b => b) (fun b _ _ => b) toy_size
              defaults 250000 thumbnail)
    as (r & evs & H & Hs & Hq & Hw & Hh & _).
  - vm_compute. discriminate.
  - vm_compute. discriminate.
  - vm_compute. discriminate.
  - exists r, evs. split; [exact H|]. split; [exact Hs|].
    split; [exact Hq|]. split; [exact Hw|exact Hh].
Defined.

(** C2, as stated, fails for an initial quality below 20, which a request
    may carry: the loop is not entered and the result is the fallback at
    quality 20. *)
Lemma compress_low_initial_quality :
  valid_request {| max_width := 1920; initial_quality := 10; max_size := 2097152 |}
  /\ width thumbnail <= 1920
  /\ toy_size (preprocess unit (fun b => b) (fun b _ _ => b) thumbnail
                 {| max_width := 1920; initial_quality := 10; max_size := 2097152 |}) 10
     <= 2097152
  /\ exists r evs,
       toy_compress thumbnail
         {| max_width := 1920; initial_quality := 10; max_size := 2097152 |} 250000
       = Some (r, evs)
       /\ quality r = 20 /\ quality r <> 10.
Proof.
  split; [unfold valid_request; cbn; lia|].
  split; [vm_compute; discriminate|].
  split; [vm_compute; discriminate|].
  eexists _, _. split; [vm_compute; reflexivity|]. cbn. split; [reflexivity|discriminate].
Qed.

Lemma fallback_reports_success_witness :
  exists r evs,
    toy_compress_fuel 30 photo
      {| max_width := 1920; initial_quality := 85; max_size := 1000 |} 5000000
    = Some (r, evs)
    /\ success r = true /\ quality r = 20
    /\ 1000 < output_size r
    /\ out_width r = 401.
Proof.
  edestruct (fallback_reports_success unit (fun b => b) (fun b _ _ => b) toy_size
               {| max_width := 1920; initial_quality := 85; max_size := 1000 |}
               5000000 30 photo)
    as (r & Hc & Hs & Hq & Hsz & Hw & _).
  - vm_compute. reflexivity.
  - exists r. eexists. split; [exact Hc|]. split; [exact Hs|]. split; [exact Hq|].
    split; [rewrite Hsz; vm_compute; reflexivity|]. rewrite Hw. reflexivity.
Defined.

Lemma search_stays_in_range_witness :
  exists r evs,
    toy_compress_fuel 30 photo
      {| max_width := 1920; initial_quality := 85; max_size := 100000 |} 5000000
    = Some (r, evs)
    /\ Forall (fun q => 20 <= q <= 100) (qualities evs)
    /\ 400 <= out_width r.
Proof.
  eexists _, _. split; [vm_compute; reflexivity|].
  edestruct (search_stays_in_range unit (fun b => b) (fun b _ _ => b) toy_size
               {| max_width := 1920; initial_quality := 85; max_size := 100000 |}
               5000000 30 photo)
    as (Hq & _ & Hw).
  - unfold valid_request. cbn. lia.
  - vm_compute. reflexivity.
  - split; [exact Hq|exact Hw].
Defined.

(** C5, as stated, fails for a [max_width] below 400: the input is 4000
    wide and the output 100. *)
Lemma compress_below_width_floor :
  valid_request {| max_width := 100; initial_quality := 85; max_size := 2097152 |}
  /\ 400 <= width photo
  /\ exists r evs,
       toy_compress photo
         {| max_width := 100; initial_quality := 85; max_size := 2097152 |} 5000000
       = Some (r, evs)
       /\ out_width r = 100 /\ out_width r < 400.
Proof.
  split; [unfold valid_request; cbn; lia|].
  split; [vm_compute; discriminate|].
  eexists _, _. split; [vm_compute; reflexivity|]. cbn. split; [reflexivity|lia].
Qed.

Lemma compress_terminates_witness :
  exists r evs,
    toy_compress photo
      {| max_width := 1920; initial_quality := 85; max_size := 1000 |} 5000000
    = Some (r, evs)
    /\ (decrements evs <= 5)%nat
    /\ (shrinks evs <> 0%nat ->
        400 * 5 ^ Z.of_nat (shrinks evs)
        <= 4 ^ Z.of_nat (shrinks evs)
           * width (preprocess unit (fun b => b) (fun b _ _ => b) photo
                      {| max_width := 1920; initial_quality := 85; max_size := 1000 |})).
Proof.
  destruct (compress_terminates unit (fun b => b) (fun b _ _ => b) toy_size
              {| max_width := 1920; initial_quality := 85; max_size := 1000 |}
              5000000 photo)
    as (r & evs & H & _ & Hd & _ & Hk).
  - unfold valid_request. cbn. lia.
  - exists r, evs. split; [exact H|]. split; [exact Hd|exact Hk].
Defined.

Example compress_demo :
  exists r evs,
    toy_compress photo
      {| max_width := 1920; initial_quality := 85; max_size := 100000 |} 5000000
    = Some (r, evs)
    /\ quality r = 45 /\ out_width r = 502 /\ out_height r = 376
    /\ decrements evs = 4%nat /\ shrinks evs = 6%nat.
Proof. eexists _, _. split; [vm_compute; reflexivity|]. repeat split. Qed.

End CompressorFacts.
